(** * Tic-tac-toe: the move-evaluation engine of [src/App.tsx]

    A shallow embedding of [checkWinner], [getAvailableMoves], [minimax],
    [getBestMove] and [makeMove], and the properties of the engine.

    Conventions.
    - A JavaScript array is a [list]; [arr[i]] is [array_get] ([None] is
      [undefined]) and [arr[i] = v] is [array_set].
    - Indices, depths and scores are JavaScript numbers that only ever hold
      integers here: they are [Z].  The scores, which start at plus or minus
      [Infinity], are [num].
    - The search mutates the board it is given; the board is the state of a
      small state monad [M], so that every write and every undo is explicit.
    - [Math.random()] reads an explicit source of draws [Rng], which
      [getBestMove] takes and returns. *)

From Stdlib Require Import ZArith QArith Qround Lia Orders OrdersTac.
From stdpp Require Import base tactics option list sorting relations.

Local Open Scope Z_scope.

(** ** Data model *)

(** [type Player = 'X' | 'O' | null] *)
Inductive Player : Type := X | O | null.

(** [type GameMode = 'pvp' | 'pvc'] *)
Inductive GameMode : Type := pvp | pvc.

(** [type Difficulty = 'easy' | 'medium' | 'hard'] *)
Inductive Difficulty : Type := easy | medium | hard.

(** The type of the field [winner]: [Player | 'tie' | null]. *)
Inductive Winner : Type :=
| W (p : Player)
| tie.

#[global] Instance Player_eq_dec : EqDecision Player.
Proof. solve_decision. Defined.

#[global] Instance GameMode_eq_dec : EqDecision GameMode.
Proof. solve_decision. Defined.

#[global] Instance Difficulty_eq_dec : EqDecision Difficulty.
Proof. solve_decision. Defined.

#[global] Instance Winner_eq_dec : EqDecision Winner.
Proof. solve_decision. Defined.

(** [board: Player[]] *)
Abbreviation Board := (list Player).

(** A winning combination is an array of three cell indices. *)
Definition Line : Type := (Z * Z * Z)%type.

(** ** JavaScript arrays and values *)

(** [arr[i]]: [None] stands for [undefined]. *)
Definition array_get {A : Type} (arr : list A) (i : Z) : option A :=
  if i <? 0 then None else arr !! Z.to_nat i.

(** [arr[i] = v] for an index inside the array.  (JavaScript would grow the
    array for [i >= arr.length]; the search only ever writes at indices taken
    from [getAvailableMoves], which are inside, see
    [getAvailableMoves_in_range].) *)
Definition array_set {A : Type} (arr : list A) (i : Z) (v : A) : list A :=
  if i <? 0 then arr else <[Z.to_nat i := v]> arr.

(** Truthiness of a cell read: ['X'] and ['O'] are truthy, [null] and
    [undefined] are falsy. *)
Definition truthy (v : option Player) : bool :=
  match v with
  | Some X | Some O => true
  | _ => false
  end.

(** Truthiness of [winner]. *)
Definition winner_truthy (w : Winner) : bool :=
  match w with
  | W null => false
  | _ => true
  end.

(** [===] on cell reads. *)
Definition strict_eq (v w : option Player) : bool := bool_decide (v = w).

(** ** [winningCombinations] *)

Definition winningCombinations : list Line :=
  [ (0, 1, 2); (3, 4, 5); (6, 7, 8);   (* rows *)
    (0, 3, 6); (1, 4, 7); (2, 5, 8);   (* columns *)
    (0, 4, 8); (2, 4, 6) ].            (* diagonals *)

(** ** [checkWinner] *)

(** The condition of the [if] in the loop of [checkWinner]. *)
Definition line_matches (board : Board) (combination : Line) : bool :=
  let '(a, b, c) := combination in
  truthy (array_get board a)
  && strict_eq (array_get board a) (array_get board b)
  && strict_eq (array_get board a) (array_get board c).

(** The [for ... of] loop of [checkWinner]: the first combination that
    matches returns from the function with [board[a]] and the combination. *)
Fixpoint checkWinner_loop (board : Board) (combinations : list Line)
  : option (Player * Line) :=
  match combinations with
  | [] => None
  | combination :: rest =>
      if line_matches board combination
      then Some (default null (array_get board (combination.1.1)), combination)
      else checkWinner_loop board rest
  end.

(** [checkWinner(board)]: the pair [(winner, winningLine)]. *)
Definition checkWinner (board : Board) : Winner * option Line :=
  match checkWinner_loop board winningCombinations with
  | Some (p, combination) => (W p, Some combination)
  | None =>
      if forallb (fun cell => bool_decide (cell ≠ null)) board
      then (tie, None)
      else (W null, None)
  end.

(** ** [getAvailableMoves] *)

(** [board.map((cell, index) => cell === null ? index : -1)
         .filter(index => index !== -1)] *)
Definition getAvailableMoves (board : Board) : list Z :=
  filter (λ index, index ≠ -1)
         (imap (λ (index : nat) (cell : Player),
                  if decide (cell = null) then Z.of_nat index else -1) board).

(** ** Numbers that may be infinite *)

Inductive num : Type :=
| NegInf
| Fin (z : Z)
| PosInf.

Definition num_leb (a b : num) : bool :=
  match a, b with
  | NegInf, _ => true
  | _, PosInf => true
  | Fin x, Fin y => x <=? y
  | _, _ => false
  end.

(** [a > b] *)
Definition num_gtb (a b : num) : bool := negb (num_leb a b).

Definition Math_max (a b : num) : num := if num_leb a b then b else a.
Definition Math_min (a b : num) : num := if num_leb a b then a else b.

(** The order on [num], as propositions. *)
Definition num_le (a b : num) : Prop := num_leb a b = true.
Definition num_lt (a b : num) : Prop := num_leb b a = false.

(** ** The board as mutable state *)

(** A computation over the one board the search works on.  [None] is only
    produced when the recursion budget of [minimax_fuel] is used up. *)
Definition M (A : Type) : Type := Board → option (A * Board).

Definition ret {A : Type} (a : A) : M A := λ board, Some (a, board).

Definition bind {A B : Type} (m : M A) (k : A → M B) : M B :=
  λ board,
    match m board with
    | Some (a, board') => k a board'
    | None => None
    end.

Notation "'let*' x ':=' m 'in' k" := (bind m (λ x, k))
  (at level 10, x name, m at level 100, k at level 200, only parsing).
Notation "'do' m 'in' k" := (bind m (λ _, k))
  (at level 10, m at level 100, k at level 200, only parsing).

(** Read the board. *)
Definition read_board : M Board := λ board, Some (board, board).

(** [board[move] = v] *)
Definition write (move : Z) (v : Player) : M unit :=
  λ board, Some (tt, array_set board move v).

(** ** [minimax] *)

(** The loop of the maximizing branch.  [rec] is the recursive call. *)
Fixpoint maximizing_loop (rec : Z → bool → num → num → M num)
    (depth : Z) (availableMoves : list Z) (alpha beta maxEval : num) : M num :=
  match availableMoves with
  | [] => ret maxEval
  | move :: rest =>
      do write move O in
      let* evaluation := rec (depth + 1) false alpha beta in
      do write move null in
      let maxEval := Math_max maxEval evaluation in
      let alpha := Math_max alpha evaluation in
      if num_leb beta alpha then ret maxEval
      else maximizing_loop rec depth rest alpha beta maxEval
  end.

(** The loop of the minimizing branch. *)
Fixpoint minimizing_loop (rec : Z → bool → num → num → M num)
    (depth : Z) (availableMoves : list Z) (alpha beta minEval : num) : M num :=
  match availableMoves with
  | [] => ret minEval
  | move :: rest =>
      do write move X in
      let* evaluation := rec (depth + 1) true alpha beta in
      do write move null in
      let minEval := Math_min minEval evaluation in
      let beta := Math_min beta evaluation in
      if num_leb beta alpha then ret minEval
      else minimizing_loop rec depth rest alpha beta minEval
  end.

(** [minimax(board, depth, isMaximizing, alpha, beta)] with a budget of
    nested calls. *)
Fixpoint minimax_fuel (fuel : nat) (depth : Z) (isMaximizing : bool)
    (alpha beta : num) : M num :=
  match fuel with
  | 0%nat => λ _, None
  | S fuel' =>
      let* board := read_board in
      let '(winner, _) := checkWinner board in
      if decide (winner = W O) then ret (Fin (10 - depth))
      else if decide (winner = W X) then ret (Fin (depth - 10))
      else if decide (winner = tie) then ret (Fin 0)
      else
        let availableMoves := getAvailableMoves board in
        if isMaximizing
        then maximizing_loop (minimax_fuel fuel') depth availableMoves
                             alpha beta NegInf
        else minimizing_loop (minimax_fuel fuel') depth availableMoves
                             alpha beta PosInf
  end.

(** [minimax]: every nested call fills one more cell, so one more call than
    the board has cells is budget enough ([minimax_fuel_enough]). *)
Definition minimax (depth : Z) (isMaximizing : bool) (alpha beta : num) : M num :=
  λ board, minimax_fuel (S (length board)) depth isMaximizing alpha beta board.

(** ** [Math.random] *)

(** The source of random numbers: the draws that the next calls of
    [Math.random()] return.  A draw is a double in [[0, 1)]; it is taken as
    the rational it denotes, and the comparison with [0.7] or [0.3] and the
    product with the number of moves are exact (the rounding of doubles is
    not modelled). *)
Definition Rng : Type := nat → Q.

Definition Math_random (rng : Rng) : Q * Rng := (rng 0%nat, λ n, rng (S n)).

(** [availableMoves[Math.floor(r * availableMoves.length)]] *)
Definition random_move (availableMoves : list Z) (r : Q) : option Z :=
  array_get availableMoves
            (Qfloor (r * inject_Z (Z.of_nat (length availableMoves)))).

(** A random source that always draws 0. *)
Definition zero_rng : Rng := λ _, 0%Q.

(** ** [getBestMove] *)

(** The loop of the optimal-play path. *)
Fixpoint getBestMove_loop (availableMoves : list Z)
    (bestMove : option Z) (bestValue : num) : M (option Z) :=
  match availableMoves with
  | [] => ret bestMove
  | move :: rest =>
      do write move O in
      let* moveValue := minimax 0 false NegInf PosInf in
      do write move null in
      if num_gtb moveValue bestValue
      then getBestMove_loop rest (Some move) moveValue
      else getBestMove_loop rest bestMove bestValue
  end.

(** The optimal-play path: from [let bestMove = availableMoves[0]] on. *)
Definition optimal_play (availableMoves : list Z) : M (option Z) :=
  getBestMove_loop availableMoves (array_get availableMoves 0) NegInf.

(** [getBestMove(board, difficulty)]: the result is a cell index or
    [undefined] ([None]); the random source is returned with the draws the
    call made removed. *)
Definition getBestMove (difficulty : Difficulty) (rng : Rng)
  : M (option Z * Rng) :=
  let* board := read_board in
  let availableMoves := getAvailableMoves board in
  let optimal (rng : Rng) : M (option Z * Rng) :=
    let* bestMove := optimal_play availableMoves in ret (bestMove, rng) in
  match difficulty with
  | easy =>
      let '(r, rng) := Math_random rng in
      if Qlt_le_dec r (7 # 10)
      then let '(r', rng) := Math_random rng in
           ret (random_move availableMoves r', rng)
      else optimal rng
  | medium =>
      let '(r, rng) := Math_random rng in
      if Qlt_le_dec r (3 # 10)
      then let '(r', rng) := Math_random rng in
           ret (random_move availableMoves r', rng)
      else optimal rng
  | hard => optimal rng
  end.

(** ** Notions used in the statements *)

(** The number of empty cells: the measure that every nested call of
    [minimax] decreases. *)
Definition count_null (board : Board) : nat :=
  length (filter (λ cell, cell = null) board).

(** The values [minimax] can return from a call at [depth] on [board]: the
    score of a terminal board met [d - depth] placements further down. *)
Definition leaf_value (depth : Z) (board : Board) (v : Z) : Prop :=
  ∃ d, depth ≤ d ≤ depth + Z.of_nat (count_null board)
       ∧ (v = 10 - d ∨ v = d - 10 ∨ v = 0).

(** What the loops of [minimax] need of the recursive call: on a board with
    fewer than [n] empty cells it returns a finite score and the board as it
    found it. *)
Definition rec_ok (n : nat) (rec : Z → bool → num → num → M num) : Prop :=
  ∀ board, (count_null board < n)%nat →
    ∀ depth isMaximizing alpha beta,
      ∃ v, rec depth isMaximizing alpha beta board = Some (Fin v, board)
           ∧ leaf_value depth board v.

(** [root_score board move value]: the search gives the candidate [move]
    (the automated opponent's mark placed at [move]) the score [value]. *)
Definition root_score (board : Board) (move : Z) (value : num) : Prop :=
  minimax 0 false NegInf PosInf (array_set board move O)
  = Some (value, array_set board move O).

(** The random draws decide whether the optimal-play path is taken. *)
Definition takes_optimal_path (difficulty : Difficulty) (rng : Rng) : Prop :=
  match difficulty with
  | easy => (7 # 10 <= rng 0%nat)%Q
  | medium => (3 # 10 <= rng 0%nat)%Q
  | hard => True
  end.

(** The random source after a call that took the optimal-play path. *)
Definition rng_after_optimal (difficulty : Difficulty) (rng : Rng) : Rng :=
  match difficulty with
  | hard => rng
  | _ => (Math_random rng).2
  end.

(** ** The game state and [makeMove] *)

(** [scores: { X: number, O: number, ties: number }] *)
Record Scores : Type := {
  scores_X : Z;
  scores_O : Z;
  scores_ties : Z
}.

(** [interface GameState] *)
Record GameState : Type := {
  board : Board;
  currentPlayer : Player;
  winner : Winner;
  winningLine : option Line;
  gameMode : GameMode;
  difficulty : Difficulty;
  scores : Scores
}.

Definition initialState : GameState := {|
  board := replicate 9 null;
  currentPlayer := X;
  winner := W null;
  winningLine := None;
  gameMode := pvp;
  difficulty := medium;
  scores := {| scores_X := 0; scores_O := 0; scores_ties := 0 |}
|}.

(** The notifications [makeMove] raises with [toast]. *)
Inductive Toast : Type :=
| toast_tie
| toast_player_wins (p : Player)
| toast_computer_wins.

(** [{ ...prev.scores, [winner === 'tie' ? 'ties' : winner]: ... + 1 }] for a
    truthy [winner]. *)
Definition bump_score (s : Scores) (w : Winner) : Scores :=
  match w with
  | tie => {| scores_X := scores_X s; scores_O := scores_O s;
              scores_ties := scores_ties s + 1 |}
  | W X => {| scores_X := scores_X s + 1; scores_O := scores_O s;
              scores_ties := scores_ties s |}
  | W O => {| scores_X := scores_X s; scores_O := scores_O s + 1;
              scores_ties := scores_ties s |}
  | W null => s
  end.

(** [makeMove(index)]: the next game state and the notification raised, if
    any.  The state update [setGameState(prev => ...)] is applied to the
    state the callback was created for.  [index] is the index of a cell of
    the board: the buttons pass their own index and the computer move effect
    passes what [getBestMove] returned. *)
Definition makeMove (gameState : GameState) (index : Z)
  : GameState * option Toast :=
  if truthy (array_get (board gameState) index)
     || winner_truthy (winner gameState)
  then (gameState, None)
  else
    let newBoard := array_set (board gameState) index (currentPlayer gameState) in
    let '(winner', winningLine') := checkWinner newBoard in
    ({| board := newBoard;
        currentPlayer :=
          if decide (currentPlayer gameState = X) then O else X;
        winner := winner';
        winningLine := winningLine';
        gameMode := gameMode gameState;
        difficulty := difficulty gameState;
        scores := if winner_truthy winner'
                  then bump_score (scores gameState) winner'
                  else scores gameState |},
     if winner_truthy winner'
     then if decide (winner' = tie) then Some toast_tie
          else match winner' with
               | W p =>
                   if bool_decide (winner' = W X)
                      || (bool_decide (gameMode gameState = pvp)
                          && bool_decide (winner' = W O))
                   then Some (toast_player_wins p)
                   else Some toast_computer_wins
               | tie => Some toast_tie
               end
     else None).

(** [resetGame] *)
Definition resetGame (prev : GameState) : GameState := {|
  board := board initialState;
  currentPlayer := currentPlayer initialState;
  winner := winner initialState;
  winningLine := winningLine initialState;
  gameMode := gameMode prev;
  difficulty := difficulty prev;
  scores := scores prev
|}.

(** [resetScores] *)
Definition resetScores (prev : GameState) : GameState := {|
  board := board prev;
  currentPlayer := currentPlayer prev;
  winner := winner prev;
  winningLine := winningLine prev;
  gameMode := gameMode prev;
  difficulty := difficulty prev;
  scores := {| scores_X := 0; scores_O := 0; scores_ties := 0 |}
|}.

(** [setGameMode(mode)] *)
Definition setGameMode (mode : GameMode) (prev : GameState) : GameState := {|
  board := board initialState;
  currentPlayer := currentPlayer initialState;
  winner := winner initialState;
  winningLine := winningLine initialState;
  gameMode := mode;
  difficulty := difficulty prev;
  scores := scores prev
|}.

(** [setDifficulty(diff)] *)
Definition setDifficulty (diff : Difficulty) (prev : GameState) : GameState := {|
  board := board prev;
  currentPlayer := currentPlayer prev;
  winner := winner prev;
  winningLine := winningLine prev;
  gameMode := gameMode prev;
  difficulty := diff;
  scores := scores prev
|}.

(** The two ways a mark gets on the board.
    - A click on the button of cell [index]; the button is disabled when the
      cell is taken, when the game is over, and during the computer's turn.
    - The computer move effect: in [pvc] mode, on [O]'s turn of a game that
      is not over, [makeMove(getBestMove([...board], difficulty))], for
      whatever the random source draws. *)
Inductive play : GameState → GameState → Prop :=
| play_click (s : GameState) (index : Z) :
    0 ≤ index < Z.of_nat (length (board s)) →
    truthy (array_get (board s) index) = false →
    winner_truthy (winner s) = false →
    ¬ (gameMode s = pvc ∧ currentPlayer s = O) →
    play s (makeMove s index).1
| play_computer (s : GameState) (rng rng' : Rng) (bestMove : Z) (b : Board) :
    gameMode s = pvc →
    currentPlayer s = O →
    winner_truthy (winner s) = false →
    getBestMove (difficulty s) rng (board s) = Some ((Some bestMove, rng'), b) →
    play s (makeMove s bestMove).1.

(** Everything the user interface can do to the game state. *)
Inductive step : GameState → GameState → Prop :=
| step_play (s s' : GameState) : play s s' → step s s'
| step_resetGame (s : GameState) : step s (resetGame s)
| step_resetScores (s : GameState) : step s (resetScores s)
| step_setGameMode (s : GameState) (mode : GameMode) :
    step s (setGameMode mode s)
| step_setDifficulty (s : GameState) (diff : Difficulty) :
    step s (setDifficulty diff s).

(** The states the application can be in. *)
Definition reachable (s : GameState) : Prop := rtc step initialState s.

(** ** The game tree *)

(** [existsb] and [forallb] that stop at the first answer. *)
Fixpoint some_move (f : Z → bool) (moves : list Z) : bool :=
  match moves with
  | [] => false
  | move :: rest => if f move then true else some_move f rest
  end.

Fixpoint every_move (f : Z → bool) (moves : list Z) : bool :=
  match moves with
  | [] => true
  | move :: rest => if f move then every_move f rest else false
  end.

(** [x_forces fuel xToMove board]: the player of [X] can win from [board]
    whatever [O] plays.  On [X]'s turn some placement wins at once or leads
    to a position of [O] with that property; on [O]'s turn every placement
    leads to a position of [X] with it. *)
Fixpoint x_forces (fuel : nat) (xToMove : bool) (board : Board) : bool :=
  match fuel with
  | 0%nat => false
  | S fuel' =>
      if xToMove
      then some_move (λ move,
             let board' := array_set board move X in
             match (checkWinner board').1 with
             | W X => true
             | W null => x_forces fuel' false board'
             | _ => false
             end) (getAvailableMoves board)
      else every_move (λ move,
             let board' := array_set board move O in
             match (checkWinner board').1 with
             | W X => true
             | W null => x_forces fuel' true board'
             | _ => false
             end) (getAvailableMoves board)
  end.

(** With [O] to move on [board], [X] can already force a win. *)
Definition x_can_force_win (board : Board) : bool :=
  x_forces (S (length board)) false board.

(** The number of cells that hold [p]. *)
Definition count_mark (p : Player) (board : Board) : nat :=
  length (filter (λ cell, cell = p) board).

(** With [X] to move on [board]: no placement of [X] wins at once, and none
    leads to a position of [O] from which [X] can force a win. *)
Definition x_reply_safe (board : Board) : bool :=
  every_move (λ move,
    let board' := array_set board move X in
    match (checkWinner board').1 with
    | W X => false
    | W null => negb (x_can_force_win board')
    | _ => true
    end) (getAvailableMoves board).

(** With [O] to move on [board]: the move [getBestMove] returns at hard
    difficulty ends the game without a win of [X], or leaves [X] a position
    that is [x_reply_safe]. *)
Definition hard_move_safe (board : Board) : bool :=
  match getBestMove hard zero_rng board with
  | Some ((Some bestMove, _), _) =>
      let board' := array_set board bestMove O in
      match (checkWinner board').1 with
      | W X => false
      | W null => x_reply_safe board'
      | _ => true
      end
  | _ => false
  end.

(** All boards of [n] cells. *)
Fixpoint all_boards (n : nat) : list Board :=
  match n with
  | 0%nat => [[]]
  | S n' => flat_map (λ board, [X :: board; O :: board; null :: board])
                     (all_boards n')
  end.

(** The check of one board: if it is [O]'s turn by the count of the marks,
    the game is in progress and [X] cannot force a win, then the move of
    [getBestMove] at hard difficulty keeps it so. *)
Definition board_check (board : Board) : bool :=
  if decide (count_mark X board = S (count_mark O board))
  then if decide ((checkWinner board).1 = W null)
       then if x_can_force_win board then true else hard_move_safe board
       else true
  else true.

(** What holds of every state the application can be in. *)
Definition state_ok (s : GameState) : Prop :=
  length (board s) = 9%nat
  ∧ winner s = (checkWinner (board s)).1
  ∧ ((currentPlayer s = X ∧ count_mark X (board s) = count_mark O (board s))
     ∨ (currentPlayer s = O
        ∧ count_mark X (board s) = S (count_mark O (board s)))).

(** What holds along a game against the computer at hard difficulty that
    started from a position not lost in advance. *)
Definition not_losing (s : GameState) : Prop :=
  state_ok s
  ∧ gameMode s = pvc
  ∧ difficulty s = hard
  ∧ winner s ≠ W X
  ∧ (winner s = W null →
     (currentPlayer s = O ∧ x_can_force_win (board s) = false)
     ∨ (currentPlayer s = X ∧ x_reply_safe (board s) = true)).

(** ** Boards and notions of the claims *)

(** The board of the scenario: [X] threatens cell 2, [O] threatens cell 5. *)
Definition scenario_board : Board :=
  [X; X; null; O; O; null; null; null; null].

(** A board without an empty cell (and without a line). *)
Definition full_board : Board := [X; O; X; X; O; O; O; X; X].

(** A board [O] has won. *)
Definition board_won_by_O : Board :=
  [O; O; O; X; X; null; X; null; null].

(** A call returns the sentinel [undefined] as if it were a result. *)
Definition returns_undefined (call : option (option Z * Rng * Board)) : Prop :=
  ∃ rng board, call = Some ((None, rng), board).

(** [line_complete board line m]: the three cells of [line] all hold the
    same non-empty mark [m]. *)
Definition line_complete (board : Board) (line : Line) (m : Player) : Prop :=
  (m = X ∨ m = O)
  ∧ array_get board line.1.1 = Some m
  ∧ array_get board line.1.2 = Some m
  ∧ array_get board line.2 = Some m.

(** ** Two games *)

(** A game against the computer at easy difficulty in which the random
    source always draws 0: [X] takes cells 0, 2 and 4, the computer cells 1
    and 3.  Then the difficulty is set to hard, on [O]'s turn. *)
Definition easy_game : GameState :=
  let s := setDifficulty easy (setGameMode pvc initialState) in
  let s := (makeMove s 0).1 in
  let s := (makeMove s 1).1 in
  let s := (makeMove s 2).1 in
  let s := (makeMove s 3).1 in
  (makeMove s 4).1.

Definition lost_position : GameState := setDifficulty hard easy_game.

(** The computer answers with cell 5 and [X] completes the diagonal 2-4-6. *)
Definition lost_game : GameState :=
  (makeMove (makeMove lost_position 5).1 6).1.

(** A game against the computer at hard difficulty: [X] opens in the
    centre. *)
Definition centre_opening : GameState :=
  (makeMove (setDifficulty hard (setGameMode pvc initialState)) 4).1.

(** The computer answers with cell 0 and [X] takes cell 8. *)
Definition centre_game : GameState :=
  (makeMove (makeMove centre_opening 0).1 8).1.

(** ** Notions of the further properties *)

(** Every draw lies in [[0, 1)], as [Math.random()] promises. *)
Definition unit_draws (rng : Rng) : Prop :=
  ∀ n, (0 <= rng n)%Q ∧ (rng n < 1)%Q.

(** The random source that draws [r] at the second call and 0 at all the
    others. *)
Definition second_draw (r : Q) : Rng :=
  λ n, match n with 1%nat => r | _ => 0%Q end.

(** The cell [index] lies on [line]. *)
Definition on_line (index : Z) (line : Line) : Prop :=
  index = line.1.1 ∨ index = line.1.2 ∨ index = line.2.

(** The number of games the scores record. *)
Definition total_score (sc : Scores) : Z :=
  scores_X sc + scores_O sc + scores_ties sc.

(** What holds of the fields of a reachable state beside [state_ok]. *)
Definition well_formed (s : GameState) : Prop :=
  state_ok s
  ∧ winningLine s = (checkWinner (board s)).2
  ∧ 0 ≤ scores_X (scores s)
  ∧ 0 ≤ scores_O (scores s)
  ∧ 0 ≤ scores_ties (scores s).

(** Placing the mark of [p] at [move] completes a line of [p]. *)
Definition wins_at (p : Player) (board : Board) (move : Z) : bool :=
  bool_decide ((checkWinner (array_set board move p)).1 = W p).

(** The empty cells at which [p] wins at once, in ascending order. *)
Definition winning_moves (p : Player) (board : Board) : list Z :=
  filter (λ move, wins_at p board move = true) (getAvailableMoves board).

(** The index [getBestMove] returns at hard difficulty. *)
Definition hard_move (board : Board) : option Z :=
  match getBestMove hard zero_rng board with
  | Some ((r, _), _) => r
  | None => None
  end.

(** The check of one board, when it is a game in progress with [O] to move
    by the count of the marks: if [O] can win at once, the move at hard
    difficulty is the first cell at which it does; if it cannot and [X]
    threatens to win at exactly one cell, the move is that cell. *)
Definition tactics_check (board : Board) : bool :=
  if decide (count_mark X board = S (count_mark O board))
  then if decide ((checkWinner board).1 = W null)
       then match winning_moves O board with
            | win :: _ => bool_decide (hard_move board = Some win)
            | [] =>
                match winning_moves X board with
                | [threat] => bool_decide (hard_move board = Some threat)
                | _ => true
                end
            end
       else true
  else true.

(** ** The value of a position without pruning *)

(** The greatest and the least of the values [f] gives the moves. *)
Definition max_over (f : Z → num) (moves : list Z) : num :=
  foldr (λ move acc, Math_max (f move) acc) NegInf moves.

Definition min_over (f : Z → num) (moves : list Z) : num :=
  foldr (λ move acc, Math_min (f move) acc) PosInf moves.

(** [best_value fuel depth isMaximizing board]: the minimax value of the
    position, over the whole game tree: the terminal scores of [minimax],
    and otherwise the greatest (on [O]'s turn) or the least (on [X]'s turn)
    of the values of all the placements, with no bounds and no [break]. *)
Fixpoint best_value (fuel : nat) (depth : Z) (isMaximizing : bool)
    (board : Board) : num :=
  match fuel with
  | 0%nat => Fin 0
  | S fuel' =>
      let winner := (checkWinner board).1 in
      if decide (winner = W O) then Fin (10 - depth)
      else if decide (winner = W X) then Fin (depth - 10)
      else if decide (winner = tie) then Fin 0
      else if isMaximizing
      then max_over (λ move, best_value fuel' (depth + 1) false
                               (array_set board move O))
                    (getAvailableMoves board)
      else min_over (λ move, best_value fuel' (depth + 1) true
                               (array_set board move X))
                    (getAvailableMoves board)
  end.

(** The value of a position: every nested level fills one more cell, so
    one more level than the board has cells covers the whole tree. *)
Definition position_value (depth : Z) (isMaximizing : bool) (board : Board)
  : num :=
  best_value (S (length board)) depth isMaximizing board.

(** What a search with the bounds [alpha] and [beta] promises of its result
    [r] when the value is [v]: a result at or below [alpha] is an upper
    bound of the value, a result at or above [beta] a lower bound, and a
    result strictly between the bounds is the value. *)
Definition within (alpha beta r v : num) : Prop :=
  (num_le r alpha → num_le v r)
  ∧ (num_le beta r → num_le r v)
  ∧ (num_lt alpha r → num_lt r beta → r = v).

(** The order on [num], packaged for the order tactic. *)
Module NumOrder.
Definition t : Type := num.
Definition eq : num → num → Prop := @Logic.eq num.
Definition lt : num → num → Prop := num_lt.
Definition le : num → num → Prop := num_le.
End NumOrder.

(** * Properties *)

(** ** The definitions on some boards *)

Example getAvailableMoves_scenario :
  getAvailableMoves scenario_board = [2; 5; 6; 7; 8].
Proof. reflexivity. Qed.

Example checkWinner_top_row :
  checkWinner [X; X; X; O; O; null; null; null; null]
  = (W X, Some (0, 1, 2)).
Proof. reflexivity. Qed.

Example checkWinner_full_board : checkWinner full_board = (tie, None).
Proof. reflexivity. Qed.

Example checkWinner_scenario : checkWinner scenario_board = (W null, None).
Proof. reflexivity. Qed.

(** With best play of both sides the empty board is a tie. *)
Example minimax_empty_board :
  minimax 0 true NegInf PosInf (replicate 9 null)
  = Some (Fin 0, replicate 9 null).
Proof. vm_compute. reflexivity. Qed.

(** At easy difficulty the move depends on the draws: a first draw below
    0.7 selects the random move, and the second draw selects which. *)
Example getBestMove_easy_draws :
  getBestMove easy zero_rng scenario_board
  = Some ((Some 2, zero_rng), scenario_board)
  ∧ getBestMove easy (λ _, 1 # 2)%Q scenario_board
    = Some ((Some 6, (λ _, 1 # 2)%Q), scenario_board)
  ∧ getBestMove easy (λ _, 9 # 10)%Q scenario_board
    = Some ((Some 5, (λ _, 9 # 10)%Q), scenario_board).
Proof. repeat split; vm_compute; reflexivity. Qed.

(** ** The order on [num] *)

Ltac num_cases :=
  repeat match goal with
         | a : num |- _ => destruct a
         end;
  unfold num_lt, num_le, num_gtb, Math_max, Math_min, num_leb in *;
  simpl in *;
  repeat match goal with
         | |- context [(?x <=? ?y)] => destruct (Z.leb_spec x y)
         | H : context [(?x <=? ?y)] |- _ => destruct (Z.leb_spec x y)
         end;
  simpl in *; try congruence; try lia.

Lemma num_le_refl a : num_le a a.
Proof. num_cases. Qed.

Lemma num_le_trans a b c : num_le a b → num_le b c → num_le a c.
Proof. num_cases. Qed.

Lemma num_lt_le_trans a b c : num_lt a b → num_le b c → num_lt a c.
Proof. num_cases. Qed.

Lemma num_le_lt_trans a b c : num_le a b → num_lt b c → num_lt a c.
Proof. num_cases. Qed.

Lemma num_lt_le a b : num_lt a b → num_le a b.
Proof. num_cases. Qed.

Lemma num_gtb_true a b : num_gtb a b = true ↔ num_lt b a.
Proof. num_cases; split; congruence. Qed.

Lemma num_gtb_false a b : num_gtb a b = false ↔ num_le a b.
Proof. num_cases; split; congruence. Qed.

Lemma Math_max_cases a b : Math_max a b = a ∨ Math_max a b = b.
Proof. unfold Math_max. destruct (num_leb a b); auto. Qed.

Lemma Math_min_cases a b : Math_min a b = a ∨ Math_min a b = b.
Proof. unfold Math_min. destruct (num_leb a b); auto. Qed.

Lemma Math_max_NegInf b : Math_max NegInf b = b.
Proof. reflexivity. Qed.

Lemma Math_min_PosInf b : Math_min PosInf b = b.
Proof. destruct b; reflexivity. Qed.

(** ** Arrays *)

Lemma array_get_of_nat {A} (arr : list A) (i : nat) :
  array_get arr (Z.of_nat i) = arr !! i.
Proof.
  unfold array_get. destruct (Z.ltb_spec (Z.of_nat i) 0); [lia|].
  by rewrite Nat2Z.id.
Qed.

Lemma array_get_Some {A} (arr : list A) (i : Z) (x : A) :
  array_get arr i = Some x ↔ 0 ≤ i ∧ arr !! Z.to_nat i = Some x.
Proof.
  unfold array_get. destruct (Z.ltb_spec i 0); split; try done.
  - intros [? _]. lia.
  - intros [_ ?]. done.
Qed.

Lemma array_get_in_range {A} (arr : list A) (i : Z) (x : A) :
  array_get arr i = Some x → 0 ≤ i < Z.of_nat (length arr).
Proof.
  intros [Hi Hl]%array_get_Some. apply lookup_lt_Some in Hl. lia.
Qed.

Lemma length_array_set {A} (arr : list A) (i : Z) (v : A) :
  length (array_set arr i v) = length arr.
Proof. unfold array_set. destruct (i <? 0); [done|]. apply length_insert. Qed.

Lemma array_get_set_eq {A} (arr : list A) (i : Z) (v : A) :
  0 ≤ i < Z.of_nat (length arr) → array_get (array_set arr i v) i = Some v.
Proof.
  intros Hi. unfold array_get, array_set.
  destruct (Z.ltb_spec i 0); [lia|]. apply list_lookup_insert_eq. lia.
Qed.

Lemma array_get_set_ne {A} (arr : list A) (i j : Z) (v : A) :
  i ≠ j → array_get (array_set arr i v) j = array_get arr j.
Proof.
  intros Hne. unfold array_get, array_set.
  destruct (Z.ltb_spec j 0); [done|].
  destruct (Z.ltb_spec i 0); [done|].
  apply list_lookup_insert_ne. lia.
Qed.

(** Writing a cell and then writing back what it held leaves the array as it
    was: the undo of the search. *)
Lemma array_set_undo {A} (arr : list A) (i : Z) (v old : A) :
  array_get arr i = Some old → array_set (array_set arr i v) i old = arr.
Proof.
  intros [Hi Hl]%array_get_Some. unfold array_set.
  destruct (Z.ltb_spec i 0); [lia|].
  rewrite list_insert_insert_eq. by apply list_insert_id.
Qed.

(** ** Empty cells *)

Lemma count_null_insert (board : Board) (i : nat) (v : Player) :
  board !! i = Some null → v ≠ null →
  count_null board = S (count_null (<[i:=v]> board)).
Proof.
  unfold count_null. revert i.
  induction board as [|cell board IH]; intros [|i] Hi Hv;
    simpl in Hi; simplify_eq.
  - change (<[0%nat:=v]> (null :: board)) with (v :: board).
    rewrite filter_cons_True by done. by rewrite filter_cons_False.
  - change (<[S i:=v]> (cell :: board)) with (cell :: <[i:=v]> board).
    specialize (IH i Hi Hv).
    destruct (decide (cell = null)).
    + rewrite !filter_cons_True by done. simpl. by rewrite IH.
    + rewrite !filter_cons_False by done. done.
Qed.

Lemma count_null_array_set (board : Board) (move : Z) (v : Player) :
  array_get board move = Some null → v ≠ null →
  count_null board = S (count_null (array_set board move v)).
Proof.
  intros [Hi Hl]%array_get_Some Hv. unfold array_set.
  destruct (Z.ltb_spec move 0); [lia|]. by apply count_null_insert.
Qed.

Lemma count_null_le_length (board : Board) :
  (count_null board ≤ length board)%nat.
Proof. apply length_filter. Qed.

Lemma forallb_not_null_false (board : Board) :
  forallb (λ cell, bool_decide (cell ≠ null)) board = false →
  ∃ i : nat, board !! i = Some null.
Proof.
  induction board as [|cell board IH]; simpl; [done|].
  destruct (decide (cell = null)) as [->|Hc].
  - intros _. by exists 0%nat.
  - rewrite bool_decide_eq_true_2 by done. simpl.
    intros [i Hi]%IH. by exists (S i).
Qed.

Lemma forallb_not_null_true (board : Board) :
  forallb (λ cell, bool_decide (cell ≠ null)) board = true →
  ∀ i : nat, board !! i ≠ Some null.
Proof.
  induction board as [|cell board IH]; simpl; intros H [|i]; try done.
  - apply andb_prop in H as [H _]. apply bool_decide_eq_true in H.
    simpl. congruence.
  - apply andb_prop in H as [_ H]. simpl. by apply IH.
Qed.

(** ** [getAvailableMoves] *)

(** The available moves are exactly the indices of the cells that hold
    [null]. *)
Lemma elem_of_getAvailableMoves (board : Board) (move : Z) :
  move ∈ getAvailableMoves board ↔ array_get board move = Some null.
Proof.
  unfold getAvailableMoves.
  rewrite list_elem_of_filter, elem_of_lookup_imap, array_get_Some. split.
  - intros (Hne & i & cell & -> & Hi).
    destruct (decide (cell = null)) as [->|]; [|done].
    by rewrite Nat2Z.id; split; [lia|].
  - intros [Hm Hl]. split.
    + lia.
    + exists (Z.to_nat move), null. rewrite decide_True by done.
      split; [lia|done].
Qed.

Lemma getAvailableMoves_in_range (board : Board) (move : Z) :
  move ∈ getAvailableMoves board → 0 ≤ move < Z.of_nat (length board).
Proof. rewrite elem_of_getAvailableMoves. apply array_get_in_range. Qed.

Lemma getAvailableMoves_nonempty (board : Board) (i : nat) :
  board !! i = Some null → getAvailableMoves board ≠ [].
Proof.
  intros Hi Hnil.
  assert (Z.of_nat i ∈ getAvailableMoves board) as Hin.
  { apply elem_of_getAvailableMoves. by rewrite array_get_of_nat. }
  rewrite Hnil in Hin. by apply not_elem_of_nil in Hin.
Qed.

Lemma getAvailableMoves_full (board : Board) :
  forallb (λ cell, bool_decide (cell ≠ null)) board = true →
  getAvailableMoves board = [].
Proof.
  intros Hfull. destruct (getAvailableMoves board) as [|move rest] eqn:E; [done|].
  assert (move ∈ getAvailableMoves board) as Hin by (rewrite E; left).
  apply elem_of_getAvailableMoves, array_get_Some in Hin as [_ Hin].
  by apply forallb_not_null_true with (i := Z.to_nat move) in Hfull.
Qed.

(** [map] visits the cells in index order and [filter] keeps that order: the
    available moves are in strictly ascending order. *)
Lemma available_from_sorted (board : Board) (k : nat) :
  let moves :=
    filter (λ index, index ≠ -1)
           (imap (λ (index : nat) (cell : Player),
                    if decide (cell = null) then Z.of_nat (k + index) else -1)
                 board) in
  StronglySorted Z.lt moves ∧ Forall (λ move, Z.of_nat k ≤ move) moves.
Proof.
  revert k. induction board as [|cell board IH]; intros k; simpl.
  - split; constructor.
  - rewrite (imap_ext _ (λ (index : nat) (cell : Player),
               if decide (cell = null) then Z.of_nat (S k + index) else -1))
      by (intros; simpl; by replace (k + S i)%nat with (S (k + i))%nat by lia).
    destruct (IH (S k)) as [Hsorted Hge].
    assert (Forall (λ move, Z.of_nat k < move)
              (filter (λ index, index ≠ -1)
                 (imap (λ (index : nat) (cell : Player),
                    if decide (cell = null) then Z.of_nat (S k + index) else -1)
                  board))) as Hgt.
    { eapply Forall_impl; [exact Hge|]. intros. simpl in *. lia. }
    destruct (decide (cell = null)).
    + rewrite filter_cons_True by lia.
      replace (k + 0)%nat with k by lia. split.
      * by constructor.
      * constructor; [lia|]. eapply Forall_impl; [exact Hgt|].
        intros. simpl in *. lia.
    + rewrite filter_cons_False by (intros ?; done). split; [done|].
      eapply Forall_impl; [exact Hgt|]. intros. simpl in *. lia.
Qed.

Lemma getAvailableMoves_sorted (board : Board) :
  StronglySorted Z.lt (getAvailableMoves board).
Proof. apply (available_from_sorted board 0). Qed.

(** ** [checkWinner] *)

Lemma line_matches_spec (board : Board) (a b c : Z) :
  line_matches board (a, b, c) = true ↔
  ∃ p, (p = X ∨ p = O) ∧ array_get board a = Some p
       ∧ array_get board b = Some p ∧ array_get board c = Some p.
Proof.
  unfold line_matches, strict_eq. rewrite !andb_true_iff, !bool_decide_eq_true.
  split.
  - intros [[Ht Hb] Hc].
    destruct (array_get board a) as [[]|] eqn:Ha; try done;
      eexists; (split; [|split; [reflexivity|split; congruence]]); auto.
  - intros (p & [-> | ->] & -> & -> & ->); done.
Qed.

Lemma checkWinner_loop_Some (board : Board) (combinations : list Line) p line :
  checkWinner_loop board combinations = Some (p, line) →
  (p = X ∨ p = O) ∧ array_get board (line.1.1) = Some p
  ∧ line_matches board line = true.
Proof.
  induction combinations as [|[[a b] c] rest IH]; cbn [checkWinner_loop];
    [done|].
  destruct (line_matches board (a, b, c)) eqn:Hm; [|exact IH].
  intros [= <- <-]. cbn [fst].
  apply line_matches_spec in Hm as Hp. destruct Hp as (p & Hp & Ha & _).
  rewrite Ha. simpl. done.
Qed.

(** A winner is never [W null] unless no line matched. *)
Lemma checkWinner_winner_cases (board : Board) :
  (checkWinner board).1 = W X ∨ (checkWinner board).1 = W O
  ∨ (checkWinner board = (tie, None)
     ∧ forallb (λ cell, bool_decide (cell ≠ null)) board = true)
  ∨ (checkWinner board = (W null, None)
     ∧ forallb (λ cell, bool_decide (cell ≠ null)) board = false).
Proof.
  unfold checkWinner.
  destruct (checkWinner_loop board winningCombinations) as [[p line]|] eqn:E.
  - apply checkWinner_loop_Some in E as ([-> | ->] & _); simpl; auto.
  - destruct (forallb _ board); auto.
Qed.

(** A board that is neither won nor tied has an empty cell, so the loops of
    [minimax] run at least once. *)
Lemma in_progress_has_move (board : Board) :
  (checkWinner board).1 = W null → getAvailableMoves board ≠ [].
Proof.
  intros Hw.
  destruct (checkWinner_winner_cases board)
    as [H | [H | [[H _] | [_ H]]]]; try (rewrite H in Hw; done).
  apply forallb_not_null_false in H as [i Hi].
  by eapply getAvailableMoves_nonempty.
Qed.

(** ** The search restores the board and returns a finite score *)

Lemma leaf_value_child (depth : Z) (board board' : Board) (v : Z) :
  count_null board = S (count_null board') →
  leaf_value (depth + 1) board' v → leaf_value depth board v.
Proof.
  intros Hc (d & Hd & Hv). exists d. split; [lia|done].
Qed.

Section loops.
Context (n : nat) (rec : Z → bool → num → num → M num).
Hypothesis Hrec : rec_ok n rec.

Lemma maximizing_loop_spec (depth : Z) (beta : num) (moves : list Z) :
  ∀ (board : Board) (alpha maxEval : num),
    (count_null board ≤ n)%nat →
    (∀ move, move ∈ moves → array_get board move = Some null) →
    (maxEval = NegInf ∨ ∃ v, maxEval = Fin v ∧ leaf_value depth board v) →
    ∃ r, maximizing_loop rec depth moves alpha beta maxEval board
         = Some (r, board)
         ∧ ((moves = [] ∧ r = maxEval)
            ∨ ∃ v, r = Fin v ∧ leaf_value depth board v).
Proof.
  induction moves as [|move rest IH]; intros board alpha maxEval Hn Hnull Hmax.
  - exists maxEval. split; [done|]. by left.
  - assert (array_get board move = Some null) as Hmove
        by (apply Hnull; left).
    pose proof (count_null_array_set board move O Hmove ltac:(done)) as Hc.
    destruct (Hrec (array_set board move O) ltac:(lia)
                   (depth + 1) false alpha beta) as (v & Hv & Hleaf).
    apply (leaf_value_child _ board) in Hleaf; [|done].
    cbn [maximizing_loop]. unfold bind at 1, write at 1.
    unfold bind at 1. rewrite Hv.
    unfold bind at 1, write at 1. rewrite (array_set_undo _ _ _ _ Hmove).
    assert (∃ w, Math_max maxEval (Fin v) = Fin w ∧ leaf_value depth board w)
      as Hmax'.
    { destruct Hmax as [-> | (w & -> & Hw)].
      - exists v. by rewrite Math_max_NegInf.
      - destruct (Math_max_cases (Fin w) (Fin v)) as [-> | ->]; eauto. }
    destruct (num_leb beta (Math_max alpha (Fin v))).
    + eexists. split; [reflexivity|]. by right.
    + destruct (IH board (Math_max alpha (Fin v)) (Math_max maxEval (Fin v))
                  Hn) as (r & Hr & Hcases).
      { intros m Hm. apply Hnull. by right. }
      { by right. }
      exists r. split; [done|]. right.
      destruct Hcases as [[_ ->] | Hfin]; done.
Qed.

Lemma minimizing_loop_spec (depth : Z) (alpha : num) (moves : list Z) :
  ∀ (board : Board) (beta minEval : num),
    (count_null board ≤ n)%nat →
    (∀ move, move ∈ moves → array_get board move = Some null) →
    (minEval = PosInf ∨ ∃ v, minEval = Fin v ∧ leaf_value depth board v) →
    ∃ r, minimizing_loop rec depth moves alpha beta minEval board
         = Some (r, board)
         ∧ ((moves = [] ∧ r = minEval)
            ∨ ∃ v, r = Fin v ∧ leaf_value depth board v).
Proof.
  induction moves as [|move rest IH]; intros board beta minEval Hn Hnull Hmin.
  - exists minEval. split; [done|]. by left.
  - assert (array_get board move = Some null) as Hmove
        by (apply Hnull; left).
    pose proof (count_null_array_set board move X Hmove ltac:(done)) as Hc.
    destruct (Hrec (array_set board move X) ltac:(lia)
                   (depth + 1) true alpha beta) as (v & Hv & Hleaf).
    apply (leaf_value_child _ board) in Hleaf; [|done].
    cbn [minimizing_loop]. unfold bind at 1, write at 1.
    unfold bind at 1. rewrite Hv.
    unfold bind at 1, write at 1. rewrite (array_set_undo _ _ _ _ Hmove).
    assert (∃ w, Math_min minEval (Fin v) = Fin w ∧ leaf_value depth board w)
      as Hmin'.
    { destruct Hmin as [-> | (w & -> & Hw)].
      - exists v. by rewrite Math_min_PosInf.
      - destruct (Math_min_cases (Fin w) (Fin v)) as [-> | ->]; eauto. }
    destruct (num_leb (Math_min beta (Fin v)) alpha).
    + eexists. split; [reflexivity|]. by right.
    + destruct (IH board (Math_min beta (Fin v)) (Math_min minEval (Fin v))
                  Hn) as (r & Hr & Hcases).
      { intros m Hm. apply Hnull. by right. }
      { by right. }
      exists r. split; [done|]. right.
      destruct Hcases as [[_ ->] | Hfin]; done.
Qed.
End loops.

(** With more budget than empty cells, [minimax_fuel] returns. *)
Lemma minimax_fuel_ok (fuel : nat) : rec_ok fuel (minimax_fuel fuel).
Proof.
  induction fuel as [|fuel IH]; intros board Hfuel depth isMaximizing alpha beta.
  - lia.
  - cbn [minimax_fuel]. unfold bind, read_board.
    destruct (checkWinner board) as [winner line] eqn:Ecw.
    assert (leaf_value depth board (10 - depth)
            ∧ leaf_value depth board (depth - 10)
            ∧ leaf_value depth board 0) as (HlO & HlX & Hlt).
    { repeat split; exists depth; (split; [lia|auto]). }
    repeat case_decide; try (eexists; split; [reflexivity|done]).
    assert (getAvailableMoves board ≠ []) as Hmoves.
    { apply in_progress_has_move. rewrite Ecw. simpl.
      destruct winner as [[]|]; done. }
    destruct isMaximizing.
    + destruct (maximizing_loop_spec fuel _ IH depth beta
                  (getAvailableMoves board) board alpha NegInf)
        as (r & Hr & [[? _] | (v & -> & Hv)]); try done.
      * lia.
      * intros move. by rewrite elem_of_getAvailableMoves.
      * by left.
      * by exists v.
    + destruct (minimizing_loop_spec fuel _ IH depth alpha
                  (getAvailableMoves board) board beta PosInf)
        as (r & Hr & [[? _] | (v & -> & Hv)]); try done.
      * lia.
      * intros move. by rewrite elem_of_getAvailableMoves.
      * by left.
      * by exists v.
Qed.

(** [minimax] returns, with a finite score and the board as it found it. *)
Lemma minimax_ok (board : Board) (depth : Z) (isMaximizing : bool)
    (alpha beta : num) :
  ∃ v, minimax depth isMaximizing alpha beta board = Some (Fin v, board)
       ∧ leaf_value depth board v.
Proof.
  unfold minimax. apply minimax_fuel_ok.
  pose proof (count_null_le_length board). lia.
Qed.

(** ** The budget does not change the result *)

Section loops_agree.
Context (n : nat) (rec1 rec2 : Z → bool → num → num → M num).
Hypothesis Hrec : rec_ok n rec1.
Hypothesis Hagree : ∀ board, (count_null board < n)%nat →
  ∀ depth isMaximizing alpha beta,
    rec1 depth isMaximizing alpha beta board
    = rec2 depth isMaximizing alpha beta board.

Lemma maximizing_loop_agree (depth : Z) (beta : num) (moves : list Z) :
  ∀ (board : Board) (alpha maxEval : num),
    (count_null board ≤ n)%nat →
    (∀ move, move ∈ moves → array_get board move = Some null) →
    maximizing_loop rec1 depth moves alpha beta maxEval board
    = maximizing_loop rec2 depth moves alpha beta maxEval board.
Proof.
  induction moves as [|move rest IH]; intros board alpha maxEval Hn Hnull;
    [done|].
  assert (array_get board move = Some null) as Hmove by (apply Hnull; left).
  pose proof (count_null_array_set board move O Hmove ltac:(done)) as Hc.
  destruct (Hrec (array_set board move O) ltac:(lia)
                 (depth + 1) false alpha beta) as (v & Hv & _).
  cbn [maximizing_loop]. unfold bind at 1 4, write at 1 3.
  unfold bind at 1 3. rewrite <- Hagree by lia. rewrite Hv.
  unfold bind at 1 2, write at 1 2. rewrite (array_set_undo _ _ _ _ Hmove).
  destruct (num_leb beta (Math_max alpha (Fin v))); [done|].
  apply IH; [done|]. intros m Hm. apply Hnull. by right.
Qed.

Lemma minimizing_loop_agree (depth : Z) (alpha : num) (moves : list Z) :
  ∀ (board : Board) (beta minEval : num),
    (count_null board ≤ n)%nat →
    (∀ move, move ∈ moves → array_get board move = Some null) →
    minimizing_loop rec1 depth moves alpha beta minEval board
    = minimizing_loop rec2 depth moves alpha beta minEval board.
Proof.
  induction moves as [|move rest IH]; intros board beta minEval Hn Hnull;
    [done|].
  assert (array_get board move = Some null) as Hmove by (apply Hnull; left).
  pose proof (count_null_array_set board move X Hmove ltac:(done)) as Hc.
  destruct (Hrec (array_set board move X) ltac:(lia)
                 (depth + 1) true alpha beta) as (v & Hv & _).
  cbn [minimizing_loop]. unfold bind at 1 4, write at 1 3.
  unfold bind at 1 3. rewrite <- Hagree by lia. rewrite Hv.
  unfold bind at 1 2, write at 1 2. rewrite (array_set_undo _ _ _ _ Hmove).
  destruct (num_leb (Math_min beta (Fin v)) alpha); [done|].
  apply IH; [done|]. intros m Hm. apply Hnull. by right.
Qed.
End loops_agree.

Lemma rec_ok_mono (n n' : nat) rec : (n' ≤ n)%nat → rec_ok n rec → rec_ok n' rec.
Proof. intros Hle Hrec board Hb. apply Hrec. lia. Qed.

Lemma minimax_fuel_agree (fuel1 : nat) :
  ∀ (fuel2 : nat) (board : Board),
    (count_null board < fuel1)%nat → (count_null board < fuel2)%nat →
    ∀ depth isMaximizing alpha beta,
      minimax_fuel fuel1 depth isMaximizing alpha beta board
      = minimax_fuel fuel2 depth isMaximizing alpha beta board.
Proof.
  induction fuel1 as [|fuel1 IH]; intros [|fuel2] board H1 H2; try lia.
  intros depth isMaximizing alpha beta.
  cbn [minimax_fuel]. unfold bind, read_board.
  destruct (checkWinner board) as [winner line].
  repeat case_decide; try done.
  destruct isMaximizing.
  - apply (maximizing_loop_agree (count_null board)).
    + eapply rec_ok_mono; [|apply minimax_fuel_ok]. lia.
    + intros b Hb. apply IH; lia.
    + done.
    + intros move. by rewrite elem_of_getAvailableMoves.
  - apply (minimizing_loop_agree (count_null board)).
    + eapply rec_ok_mono; [|apply minimax_fuel_ok]. lia.
    + intros b Hb. apply IH; lia.
    + done.
    + intros move. by rewrite elem_of_getAvailableMoves.
Qed.

(** Any budget above the number of empty cells gives the result of
    [minimax]. *)
Lemma minimax_fuel_enough (fuel : nat) (board : Board) (depth : Z)
    (isMaximizing : bool) (alpha beta : num) :
  (count_null board < fuel)%nat →
  minimax_fuel fuel depth isMaximizing alpha beta board
  = minimax depth isMaximizing alpha beta board.
Proof.
  intros Hfuel. unfold minimax. apply minimax_fuel_agree; [done|].
  pose proof (count_null_le_length board). lia.
Qed.

(** ** The optimal-play loop of [getBestMove] *)

Lemma root_score_exists (board : Board) (move : Z) :
  ∃ v, root_score board move (Fin v).
Proof.
  destruct (minimax_ok (array_set board move O) 0 false NegInf PosInf)
    as (v & Hv & _).
  by exists v.
Qed.

Lemma root_score_unique (board : Board) (move : Z) (v w : num) :
  root_score board move v → root_score board move w → v = w.
Proof. unfold root_score. intros -> [= ->]. done. Qed.

Lemma getBestMove_loop_spec (board : Board) (moves : list Z) :
  ∀ (bestMove : option Z) (bestValue : num),
    StronglySorted Z.lt moves →
    (∀ move, move ∈ moves → array_get board move = Some null) →
    ∃ r, getBestMove_loop moves bestMove bestValue board = Some (r, board)
      ∧ ((r = bestMove
          ∧ ∀ move value, move ∈ moves → root_score board move value →
                          num_le value bestValue)
         ∨ (∃ best value, r = Some best ∧ best ∈ moves
              ∧ root_score board best value ∧ num_lt bestValue value
              ∧ ∀ move value', move ∈ moves → root_score board move value' →
                  num_le value' value ∧ (move < best → num_lt value' value))).
Proof.
  induction moves as [|move rest IH]; intros bestMove bestValue Hsorted Hnull.
  - exists bestMove. split; [done|]. left. split; [done|].
    intros ? ? []%elem_of_nil.
  - assert (array_get board move = Some null) as Hmove by (apply Hnull; left).
    apply StronglySorted_inv in Hsorted as [Hsorted Hlt].
    rewrite Forall_forall in Hlt.
    destruct (root_score_exists board move) as (v & Hv).
    cbn [getBestMove_loop]. unfold bind at 1, write at 1.
    unfold bind at 1. rewrite Hv.
    unfold bind at 1, write at 1. rewrite (array_set_undo _ _ _ _ Hmove).
    assert (∀ m, m ∈ rest → array_get board m = Some null) as Hnull'
        by (intros m Hm; apply Hnull; by right).
    destruct (num_gtb (Fin v) bestValue) eqn:Hgt.
    + apply num_gtb_true in Hgt.
      destruct (IH (Some move) (Fin v) Hsorted Hnull')
        as (r & Hr & [[-> Hall] | (best & value & -> & Hin & Hs & Hbetter & Hall)]).
      * exists (Some move). split; [done|]. right.
        exists move, (Fin v).
        split; [done|]. split; [left|]. split; [done|]. split; [done|].
        intros m value [-> | Hm]%elem_of_cons Hvalue.
        -- rewrite (root_score_unique _ _ _ _ Hvalue Hv).
           split; [apply num_le_refl | lia].
        -- split; [eauto|]. apply Hlt in Hm. lia.
      * exists (Some best). split; [done|]. right.
        exists best, value.
        split; [done|]. split; [by right|]. split; [done|]. split.
        { eapply num_lt_le_trans; [exact Hgt|]. by apply num_lt_le. }
        intros m value' [-> | Hm]%elem_of_cons Hvalue.
        -- rewrite (root_score_unique _ _ _ _ Hvalue Hv).
           split; [by apply num_lt_le | done].
        -- by eapply Hall.
    + apply num_gtb_false in Hgt.
      destruct (IH bestMove bestValue Hsorted Hnull')
        as (r & Hr & [[-> Hall] | (best & value & -> & Hin & Hs & Hbetter & Hall)]).
      * exists bestMove. split; [done|]. left. split; [done|].
        intros m value [-> | Hm]%elem_of_cons Hvalue.
        -- by rewrite (root_score_unique _ _ _ _ Hvalue Hv).
        -- eauto.
      * exists (Some best). split; [done|]. right.
        exists best, value.
        split; [done|]. split; [by right|]. split; [done|]. split; [done|].
        intros m value' [-> | Hm]%elem_of_cons Hvalue.
        -- rewrite (root_score_unique _ _ _ _ Hvalue Hv).
           assert (num_lt (Fin v) value) by (by eapply num_le_lt_trans).
           split; [by apply num_lt_le | done].
        -- by eapply Hall.
Qed.

Lemma getBestMove_optimal (difficulty : Difficulty) (rng : Rng) (board : Board) :
  takes_optimal_path difficulty rng →
  getBestMove difficulty rng board
  = match optimal_play (getAvailableMoves board) board with
    | Some (bestMove, board') =>
        Some ((bestMove, rng_after_optimal difficulty rng), board')
    | None => None
    end.
Proof.
  intros Hpath. unfold getBestMove, bind at 1, read_board.
  destruct difficulty; simpl in *.
  - destruct (Qlt_le_dec (rng 0%nat) (7 # 10)) as [Hlt|_].
    + exfalso. by eapply Qlt_not_le.
    + unfold bind, ret. by destruct (optimal_play _ board) as [[]|].
  - destruct (Qlt_le_dec (rng 0%nat) (3 # 10)) as [Hlt|_].
    + exfalso. by eapply Qlt_not_le.
    + unfold bind, ret. by destruct (optimal_play _ board) as [[]|].
  - unfold bind, ret. by destruct (optimal_play _ board) as [[]|].
Qed.

Lemma optimal_play_returns (board : Board) :
  ∃ r, optimal_play (getAvailableMoves board) board = Some (r, board).
Proof.
  destruct (getBestMove_loop_spec board (getAvailableMoves board)
              (array_get (getAvailableMoves board) 0) NegInf)
    as (r & Hr & _).
  - apply getAvailableMoves_sorted.
  - intros move. by rewrite elem_of_getAvailableMoves.
  - by exists r.
Qed.

Lemma optimal_play_spec (board : Board) :
  getAvailableMoves board ≠ [] →
  ∃ best value,
    optimal_play (getAvailableMoves board) board = Some (Some best, board)
    ∧ array_get board best = Some null
    ∧ root_score board best (Fin value)
    ∧ ∀ move v, array_get board move = Some null → root_score board move v →
        num_le v (Fin value) ∧ (move < best → num_lt v (Fin value)).
Proof.
  intros Hmoves.
  destruct (getBestMove_loop_spec board (getAvailableMoves board)
              (array_get (getAvailableMoves board) 0) NegInf)
    as (r & Hr & Hcases).
  { apply getAvailableMoves_sorted. }
  { intros move. by rewrite elem_of_getAvailableMoves. }
  destruct Hcases as [[_ Hall] | (best & value & -> & Hin & Hs & _ & Hall)].
  - destruct (getAvailableMoves board) as [|move rest] eqn:E; [done|].
    destruct (root_score_exists board move) as (v & Hv).
    specialize (Hall move (Fin v) ltac:(left) Hv). done.
  - destruct (root_score_exists board best) as (v & Hv).
    rewrite (root_score_unique _ _ _ _ Hs Hv) in *.
    exists best, v. split; [done|].
    split; [by apply elem_of_getAvailableMoves|]. split; [done|].
    intros move w Hmove Hw. apply Hall; [|done].
    by apply elem_of_getAvailableMoves.
Qed.

(** Every call of [getBestMove] returns and leaves the board as it was. *)
Lemma getBestMove_returns (difficulty : Difficulty) (rng : Rng) (board : Board) :
  ∃ r rng', getBestMove difficulty rng board = Some ((r, rng'), board).
Proof.
  destruct (optimal_play_returns board) as (r & Hr).
  unfold getBestMove, bind at 1, read_board.
  destruct difficulty; simpl.
  - destruct (Qlt_le_dec _ _).
    + eexists _, _. reflexivity.
    + unfold bind. rewrite Hr. eexists _, _. reflexivity.
  - destruct (Qlt_le_dec _ _).
    + eexists _, _. reflexivity.
    + unfold bind. rewrite Hr. eexists _, _. reflexivity.
  - unfold bind. rewrite Hr. eexists _, _. reflexivity.
Qed.

(** At hard difficulty the random source is neither read nor advanced. *)
Lemma getBestMove_hard (rng : Rng) (board : Board) :
  ∃ r, optimal_play (getAvailableMoves board) board = Some (r, board)
       ∧ getBestMove hard rng board = Some ((r, rng), board).
Proof.
  destruct (optimal_play_returns board) as (r & Hr). exists r. split; [done|].
  rewrite getBestMove_optimal by done. by rewrite Hr.
Qed.

Lemma getBestMove_hard_agree (board : Board) (rng1 rng2 : Rng) :
  ∃ move,
    getBestMove hard rng1 board = Some ((move, rng1), board)
    ∧ getBestMove hard rng2 board = Some ((move, rng2), board).
Proof.
  destruct (getBestMove_hard rng1 board) as (r1 & Hr1 & H1).
  destruct (getBestMove_hard rng2 board) as (r2 & Hr2 & H2).
  exists r1. split; [done|]. rewrite Hr1 in Hr2. by simplify_eq.
Qed.

(** ** Claims *)

(** C1, as the claim states it, fails: on the scenario board the call does
    not return cell 2. *)
Lemma C1_scenario_not_2 :
  ¬ ∃ rng board,
      getBestMove hard zero_rng scenario_board = Some ((Some 2, rng), board).
Proof. intros (rng & b & H). vm_compute in H. congruence. Qed.

(** C1 (amended): on the board [X, X, Empty, O, O, Empty, Empty, Empty, Empty]
    at hard difficulty [getBestMove] returns cell 5, the move that completes
    [O]'s own row and wins at once (score 10), not the block at cell 2
    (score 8). *)
Theorem C1_scenario_returns_5 (rng : Rng) :
  getBestMove hard rng scenario_board = Some ((Some 5, rng), scenario_board)
  ∧ root_score scenario_board 5 (Fin 10)
  ∧ root_score scenario_board 2 (Fin 8).
Proof. repeat split; vm_compute; reflexivity. Qed.

(** C2, as the claim states it, fails: on a full board the call returns
    [undefined] like any other result. *)
Lemma C2_full_board_returns_undefined :
  returns_undefined (getBestMove hard zero_rng full_board)
  ∧ returns_undefined (getBestMove easy zero_rng full_board).
Proof. split; eexists _, _; vm_compute; reflexivity. Qed.

(** C2 (amended): on a board with no empty cell [getBestMove] returns
    [undefined], at every difficulty and whatever the random source draws,
    and leaves the board as it was; nothing is signalled. *)
Theorem C2_no_moves_returns_undefined
    (board : Board) (difficulty : Difficulty) (rng : Rng) :
  (∀ index, array_get board index ≠ Some null) →
  ∃ rng', getBestMove difficulty rng board = Some ((None, rng'), board).
Proof.
  intros Hfull.
  assert (getAvailableMoves board = []) as Hmoves.
  { destruct (getAvailableMoves board) as [|move rest] eqn:E; [done|].
    exfalso. apply (Hfull move), elem_of_getAvailableMoves.
    rewrite E. left. }
  assert (∀ r, random_move [] r = None) as Hrandom.
  { intros r. unfold random_move, array_get. by destruct (_ <? 0). }
  unfold getBestMove, bind at 1, read_board. rewrite Hmoves.
  destruct difficulty; simpl.
  - destruct (Qlt_le_dec _ _); [rewrite Hrandom|]; eexists; reflexivity.
  - destruct (Qlt_le_dec _ _); [rewrite Hrandom|]; eexists; reflexivity.
  - eexists; reflexivity.
Qed.

Lemma C2_no_moves_witness :
  ∃ rng', getBestMove medium zero_rng full_board
          = Some ((None, rng'), full_board).
Proof.
  apply (C2_no_moves_returns_undefined full_board medium zero_rng).
  intros index Hget. apply array_get_Some in Hget as [Hge Hget].
  apply lookup_lt_Some in Hget as Hlt. simpl in Hlt.
  assert (index = 0 ∨ index = 1 ∨ index = 2 ∨ index = 3 ∨ index = 4
          ∨ index = 5 ∨ index = 6 ∨ index = 7 ∨ index = 8) as Hcases by lia.
  destruct Hcases as [-> | [-> | [-> | [-> | [-> | [-> | [-> | [-> | ->]]]]]]]];
    vm_compute in Hget; congruence.
Defined.

(** C3: after [minimax] or [getBestMove] returns, the board is as it was
    before the call, for every board, depth, turn, bounds, difficulty and
    random source; and both do return. *)
Theorem C3_search_restores_board (board : Board) :
  (∀ depth isMaximizing alpha beta,
     ∃ value, minimax depth isMaximizing alpha beta board
              = Some (value, board))
  ∧ (∀ difficulty rng,
       ∃ move rng', getBestMove difficulty rng board
                    = Some ((move, rng'), board)).
Proof.
  split.
  - intros depth isMaximizing alpha beta.
    destruct (minimax_ok board depth isMaximizing alpha beta) as (v & Hv & _).
    by exists (Fin v).
  - intros difficulty rng. apply getBestMove_returns.
Qed.

(** C4: at hard difficulty [getBestMove] draws no random number, and two
    calls on the same board return the same cell index whatever the random
    sources hold. *)
Theorem C4_hard_is_deterministic (board : Board) (rng1 rng2 : Rng) :
  ∃ move,
    getBestMove hard rng1 board = Some ((move, rng1), board)
    ∧ getBestMove hard rng2 board = Some ((move, rng2), board).
Proof.
  apply getBestMove_hard_agree.
Qed.

(** ** [checkWinner] returns the first complete line *)

Lemma line_matches_complete (board : Board) (line : Line) :
  line_matches board line = true ↔ ∃ m, line_complete board line m.
Proof.
  destruct line as [[a b] c]. rewrite line_matches_spec.
  unfold line_complete. simpl. naive_solver.
Qed.

Lemma line_matches_false (board : Board) (line : Line) :
  line_matches board line = false ↔ ∀ m, ¬ line_complete board line m.
Proof.
  rewrite <- not_true_iff_false, line_matches_complete. split.
  - intros Hnone m Hm. apply Hnone. by exists m.
  - intros Hnone [m Hm]. by apply (Hnone m).
Qed.

Lemma checkWinner_loop_first (board : Board) (pre post : list Line)
    (line : Line) (m : Player) :
  (∀ l m', l ∈ pre → ¬ line_complete board l m') →
  line_complete board line m →
  checkWinner_loop board (pre ++ line :: post) = Some (m, line).
Proof.
  intros Hpre Hline. induction pre as [|l pre IH]; cbn [app checkWinner_loop].
  - assert (line_matches board line = true) as ->
        by (apply line_matches_complete; eauto).
    destruct Hline as (_ & -> & _). done.
  - assert (line_matches board l = false) as ->.
    { apply line_matches_false. intros m'. apply Hpre. left. }
    apply IH. intros l' m' Hl'. apply Hpre. by right.
Qed.

Lemma checkWinner_loop_none (board : Board) (combinations : list Line) :
  (∀ l m', l ∈ combinations → ¬ line_complete board l m') →
  checkWinner_loop board combinations = None.
Proof.
  induction combinations as [|l rest IH]; intros Hnone; cbn [checkWinner_loop];
    [done|].
  assert (line_matches board l = false) as ->.
  { apply line_matches_false. intros m'. apply Hnone. left. }
  apply IH. intros l' m' Hl'. apply Hnone. by right.
Qed.

Lemma checkWinner_loop_None_inv (board : Board) (combinations : list Line) :
  checkWinner_loop board combinations = None →
  ∀ l, l ∈ combinations → line_matches board l = false.
Proof.
  induction combinations as [|l rest IH]; cbn [checkWinner_loop];
    intros E l' Hl'; [by apply elem_of_nil in Hl'|].
  destruct (line_matches board l) eqn:Hm; [done|].
  apply elem_of_cons in Hl' as [-> | Hl']; [done|]. by apply IH.
Qed.

(** C6: [checkWinner] returns the win of the first line of the table whose
    three cells hold the same non-empty mark; with no such line it returns
    the tie when every cell is non-empty and no result otherwise; a complete
    line on a full board is a win, never a tie. *)
Theorem C6_checkWinner_spec (board : Board) :
  (∀ pre line post m,
     winningCombinations = pre ++ line :: post →
     (∀ l m', l ∈ pre → ¬ line_complete board l m') →
     line_complete board line m →
     checkWinner board = (W m, Some line))
  ∧ ((∀ l m', l ∈ winningCombinations → ¬ line_complete board l m') →
     (Forall (λ cell, cell ≠ null) board → checkWinner board = (tie, None))
     ∧ (Exists (λ cell, cell = null) board →
        checkWinner board = (W null, None)))
  ∧ (∀ line m,
       line ∈ winningCombinations → line_complete board line m →
       ∃ m' line', (m' = X ∨ m' = O)
                   ∧ checkWinner board = (W m', Some line')).
Proof.
  split; [|split].
  - intros pre line post m Htable Hpre Hline. unfold checkWinner.
    rewrite Htable. by rewrite (checkWinner_loop_first _ _ _ _ m).
  - intros Hnone. unfold checkWinner.
    rewrite checkWinner_loop_none by done. split.
    + intros Hfull.
      assert (forallb (λ cell, bool_decide (cell ≠ null)) board = true) as ->;
        [|done].
      apply forallb_forall. intros cell Hcell. apply bool_decide_eq_true.
      rewrite Forall_forall in Hfull. by apply Hfull, list_elem_of_In.
    + intros Hempty.
      destruct (forallb _ board) eqn:E; [|done].
      apply Exists_exists in Hempty as (cell & Hcell & ->).
      apply list_elem_of_lookup in Hcell as [i Hi].
      by apply forallb_not_null_true with (i := i) in E.
  - intros line m Hin Hline. unfold checkWinner.
    destruct (checkWinner_loop board winningCombinations) as [[p l]|] eqn:E.
    + apply checkWinner_loop_Some in E as (Hp & _). by exists p, l.
    + exfalso.
      pose proof (checkWinner_loop_None_inv _ _ E line Hin) as Hm.
      rewrite line_matches_false in Hm. by apply (Hm m).
Qed.

(** The column 2-5-8 of [X] on a board where no earlier line is complete. *)
Lemma C6_checkWinner_witness :
  checkWinner [O; O; X; null; null; X; null; null; X] = (W X, Some (2, 5, 8)).
Proof.
  apply (proj1 (C6_checkWinner_spec [O; O; X; null; null; X; null; null; X])
           [(0, 1, 2); (3, 4, 5); (6, 7, 8); (0, 3, 6); (1, 4, 7)]
           (2, 5, 8) [(0, 4, 8); (2, 4, 6)] X).
  - reflexivity.
  - intros l m' Hl (Hm & H1 & H2 & H3).
    repeat (apply elem_of_cons in Hl as [-> | Hl]);
      [..|by apply elem_of_nil in Hl];
      vm_compute in H1, H2, H3; destruct Hm; congruence.
  - repeat split; [by left|..]; reflexivity.
Defined.

(** ** Terminal boards *)





(** C8: on the optimal-play path the candidates are tried in ascending
    index order, and the index returned is the lowest-index empty cell whose
    root score is the maximum: every empty cell scores at most as much, and
    every empty cell of lower index scores strictly less. *)
Theorem C8_lowest_index_of_best (board : Board) (difficulty : Difficulty)
    (rng : Rng) :
  takes_optimal_path difficulty rng →
  getAvailableMoves board ≠ [] →
  StronglySorted Z.lt (getAvailableMoves board)
  ∧ ∃ best value,
      getBestMove difficulty rng board
      = Some ((Some best, rng_after_optimal difficulty rng), board)
      ∧ array_get board best = Some null
      ∧ root_score board best (Fin value)
      ∧ ∀ move v,
          array_get board move = Some null → root_score board move v →
          num_le v (Fin value) ∧ (move < best → num_lt v (Fin value)).
Proof.
  intros Hpath Hmoves. split; [apply getAvailableMoves_sorted|].
  destruct (optimal_play_spec board Hmoves)
    as (best & value & Hplay & Hbest & Hscore & Hall).
  exists best, value. rewrite getBestMove_optimal by done. by rewrite Hplay.
Qed.

(** On the empty board every cell scores 0 and the first one is returned. *)
Lemma C8_lowest_index_witness :
  StronglySorted Z.lt (getAvailableMoves (replicate 9 null))
  ∧ ∃ best value,
      getBestMove hard zero_rng (replicate 9 null)
      = Some ((Some best, zero_rng), replicate 9 null)
      ∧ array_get (replicate 9 null) best = Some null
      ∧ root_score (replicate 9 null) best (Fin value)
      ∧ ∀ move v,
          array_get (replicate 9 null) move = Some null →
          root_score (replicate 9 null) move v →
          num_le v (Fin value) ∧ (move < best → num_lt v (Fin value)).
Proof.
  apply (C8_lowest_index_of_best (replicate 9 null) hard zero_rng).
  - exact I.
  - vm_compute. discriminate.
Defined.

(** C9, as the claim states it, fails: called at depth 21 on a board [O] has
    won, [minimax] returns -11, which is outside [-10, 10]. *)
Lemma C9_depth_21_out_of_interval :
  ∃ v, minimax 21 true NegInf PosInf board_won_by_O
       = Some (Fin v, board_won_by_O)
       ∧ ¬ (-10 ≤ v ≤ 10).
Proof. exists (-11). split; [vm_compute; reflexivity | lia]. Qed.

(** C9 (amended): for every board, depth, turn and bounds [minimax] returns
    (any budget of nested calls above the number of empty cells gives the
    same result), and what it returns is finite, never plus or minus
    infinity; when the depth is not negative and depth plus the number of
    empty cells is at most 20, as in every call of a search started at depth
    0 on a 9-cell board, the value lies in [-10, 10]. *)
Theorem C9_minimax_total_and_bounded (board : Board) (depth : Z)
    (isMaximizing : bool) (alpha beta : num) :
  ∃ v,
    minimax depth isMaximizing alpha beta board = Some (Fin v, board)
    ∧ (∀ fuel, (count_null board < fuel)%nat →
         minimax_fuel fuel depth isMaximizing alpha beta board
         = Some (Fin v, board))
    ∧ (0 ≤ depth → depth + Z.of_nat (count_null board) ≤ 20 →
       -10 ≤ v ≤ 10).
Proof.
  destruct (minimax_ok board depth isMaximizing alpha beta)
    as (v & Hv & d & Hd & Hleaf).
  exists v. split; [done|]. split.
  - intros fuel Hfuel. by rewrite minimax_fuel_enough.
  - lia.
Qed.

(** The value of the empty board at depth 0. *)
Lemma C9_minimax_witness :
  ∃ v, minimax 0 false NegInf PosInf (replicate 9 null)
       = Some (Fin v, replicate 9 null)
       ∧ -10 ≤ v ≤ 10.
Proof.
  destruct (C9_minimax_total_and_bounded (replicate 9 null) 0 false
              NegInf PosInf) as (v & Hv & _ & Hbound).
  exists v. split; [exact Hv|]. apply Hbound; vm_compute; discriminate.
Defined.

(** C10: [makeMove] on an occupied cell, or once a winner or a tie is
    recorded, changes nothing of the game state and raises no notification. *)
Theorem C10_makeMove_noop (gameState : GameState) (index : Z) :
  truthy (array_get (board gameState) index) = true
  ∨ winner_truthy (winner gameState) = true →
  makeMove gameState index = (gameState, None).
Proof.
  intros Hguard. unfold makeMove.
  destruct Hguard as [-> | ->]; [done|]. by rewrite orb_true_r.
Qed.

Lemma C10_makeMove_noop_witness :
  makeMove (makeMove initialState 4).1 4 = ((makeMove initialState 4).1, None).
Proof.
  apply (C10_makeMove_noop (makeMove initialState 4).1 4).
  left. reflexivity.
Defined.

(** ** The game: what every reachable state satisfies *)

Lemma count_mark_insert_same (board : Board) (i : nat) (q : Player) :
  board !! i = Some null → q ≠ null →
  count_mark q (<[i:=q]> board) = S (count_mark q board).
Proof.
  unfold count_mark. revert i.
  induction board as [|cell board IH]; intros [|i] Hi Hq;
    simpl in Hi; simplify_eq.
  - change (<[0%nat:=q]> (null :: board)) with (q :: board).
    rewrite filter_cons_True by done. by rewrite filter_cons_False.
  - change (<[S i:=q]> (cell :: board)) with (cell :: <[i:=q]> board).
    specialize (IH i Hi Hq).
    destruct (decide (cell = q)).
    + rewrite !filter_cons_True by done. simpl. by rewrite IH.
    + by rewrite !filter_cons_False.
Qed.

Lemma count_mark_insert_other (board : Board) (i : nat) (p q : Player) :
  board !! i = Some null → p ≠ q → p ≠ null →
  count_mark p (<[i:=q]> board) = count_mark p board.
Proof.
  unfold count_mark. revert i.
  induction board as [|cell board IH]; intros [|i] Hi Hpq Hp;
    simpl in Hi; simplify_eq.
  - change (<[0%nat:=q]> (null :: board)) with (q :: board).
    by rewrite !filter_cons_False by done.
  - change (<[S i:=q]> (cell :: board)) with (cell :: <[i:=q]> board).
    specialize (IH i Hi Hpq Hp).
    destruct (decide (cell = p)).
    + rewrite !filter_cons_True by done. simpl. by rewrite IH.
    + by rewrite !filter_cons_False.
Qed.

Lemma count_mark_array_set_same (board : Board) (move : Z) (q : Player) :
  array_get board move = Some null → q ≠ null →
  count_mark q (array_set board move q) = S (count_mark q board).
Proof.
  intros [Hi Hl]%array_get_Some Hq. unfold array_set.
  destruct (Z.ltb_spec move 0); [lia|]. by apply count_mark_insert_same.
Qed.

Lemma count_mark_array_set_other (board : Board) (move : Z) (p q : Player) :
  array_get board move = Some null → p ≠ q → p ≠ null →
  count_mark p (array_set board move q) = count_mark p board.
Proof.
  intros [Hi Hl]%array_get_Some Hpq Hp. unfold array_set.
  destruct (Z.ltb_spec move 0); [lia|]. by apply count_mark_insert_other.
Qed.

(** A falsy cell inside the board is an empty cell. *)
Lemma falsy_in_range_is_null (board : Board) (index : Z) :
  0 ≤ index < Z.of_nat (length board) →
  truthy (array_get board index) = false →
  array_get board index = Some null.
Proof.
  intros Hrange Hfalsy. unfold array_get in *.
  destruct (Z.ltb_spec index 0); [lia|].
  destruct (lookup_lt_is_Some_2 board (Z.to_nat index) ltac:(lia)) as [cell Hc].
  rewrite Hc in *. by destruct cell.
Qed.

(** What [getBestMove] returns, when it returns an index, is an empty
    cell. *)
Lemma getBestMove_available (difficulty : Difficulty) (rng rng' : Rng)
    (board board' : Board) (move : Z) :
  getBestMove difficulty rng board = Some ((Some move, rng'), board') →
  array_get board move = Some null.
Proof.
  assert (∀ r, random_move (getAvailableMoves board) r = Some move →
               array_get board move = Some null) as Hrandom.
  { intros r [_ Hr]%array_get_Some.
    apply elem_of_getAvailableMoves. by eapply list_elem_of_lookup_2. }
  assert (∀ b, optimal_play (getAvailableMoves board) board
               = Some (Some move, b) →
               array_get board move = Some null) as Hoptimal.
  { intros b Hb. unfold optimal_play in Hb.
    destruct (getBestMove_loop_spec board (getAvailableMoves board)
                (array_get (getAvailableMoves board) 0) NegInf)
      as (r & Hr & Hcases).
    { apply getAvailableMoves_sorted. }
    { intros m. by rewrite elem_of_getAvailableMoves. }
    rewrite Hr in Hb. simplify_eq.
    destruct Hcases as [[Hhead _] | (best & value & Hbest & Hin & _)].
    - symmetry in Hhead. apply array_get_Some in Hhead as [_ Hhead].
      apply elem_of_getAvailableMoves. by eapply list_elem_of_lookup_2.
    - simplify_eq. by apply elem_of_getAvailableMoves. }
  unfold getBestMove, bind at 1, read_board.
  destruct difficulty; simpl.
  - destruct (Qlt_le_dec _ _).
    + intros [= Hr _ _]. eauto.
    + unfold bind. destruct (optimal_play _ board) as [[r b]|] eqn:E; [|done].
      intros [= -> _ _]. eauto.
  - destruct (Qlt_le_dec _ _).
    + intros [= Hr _ _]. eauto.
    + unfold bind. destruct (optimal_play _ board) as [[r b]|] eqn:E; [|done].
      intros [= -> _ _]. eauto.
  - unfold bind. destruct (optimal_play _ board) as [[r b]|] eqn:E; [|done].
    intros [= -> _ _]. eauto.
Qed.

(** [makeMove] on an empty cell of a game in progress. *)
Lemma makeMove_place (s : GameState) (index : Z) :
  array_get (board s) index = Some null →
  winner_truthy (winner s) = false →
  board (makeMove s index).1 = array_set (board s) index (currentPlayer s)
  ∧ currentPlayer (makeMove s index).1
    = (if decide (currentPlayer s = X) then O else X)
  ∧ winner (makeMove s index).1
    = (checkWinner (array_set (board s) index (currentPlayer s))).1
  ∧ gameMode (makeMove s index).1 = gameMode s
  ∧ difficulty (makeMove s index).1 = difficulty s.
Proof.
  intros Hcell Hwinner. unfold makeMove. rewrite Hcell, Hwinner. simpl.
  by destruct (checkWinner _) as [w l].
Qed.

Lemma state_ok_initial : state_ok initialState.
Proof. repeat split. left. by split. Qed.

Lemma state_ok_makeMove (s : GameState) (index : Z) :
  state_ok s →
  array_get (board s) index = Some null →
  winner_truthy (winner s) = false →
  state_ok (makeMove s index).1.
Proof.
  intros (Hlen & Hw & Hturn) Hcell Hwinner.
  destruct (makeMove_place s index Hcell Hwinner)
    as (Hb & Hp & Hw' & _ & _).
  unfold state_ok. rewrite Hb, Hp, Hw'.
  split; [by rewrite length_array_set|]. split; [done|].
  destruct Hturn as [[-> Hcount] | [-> Hcount]]; [right | left];
    (split; [done|]).
  - rewrite count_mark_array_set_same, count_mark_array_set_other by done.
    by rewrite Hcount.
  - rewrite count_mark_array_set_same, count_mark_array_set_other by done.
    done.
Qed.

Lemma state_ok_play (s s' : GameState) : state_ok s → play s s' → state_ok s'.
Proof.
  intros Hok Hplay.
  destruct Hplay as [s index Hrange Hcell Hwinner _
                    | s rng rng' bestMove b _ _ Hwinner Hbest].
  - apply state_ok_makeMove; [done| |done].
    by apply falsy_in_range_is_null.
  - apply state_ok_makeMove; [done| |done].
    by eapply getBestMove_available.
Qed.

Lemma state_ok_step (s s' : GameState) : state_ok s → step s s' → state_ok s'.
Proof.
  intros Hok Hstep. destruct Hstep as [s s' Hplay | s | s | s mode | s diff].
  - by eapply state_ok_play.
  - apply state_ok_initial.
  - exact Hok.
  - apply state_ok_initial.
  - exact Hok.
Qed.

Lemma reachable_state_ok (s : GameState) : reachable s → state_ok s.
Proof.
  unfold reachable. revert s.
  apply (rtc_ind_r (λ s, state_ok s) initialState).
  - apply state_ok_initial.
  - intros s s' _ Hstep Hok. by eapply state_ok_step.
Qed.

(** ** The game at hard difficulty *)

Lemma every_move_true (f : Z → bool) (moves : list Z) :
  every_move f moves = true ↔ ∀ move, move ∈ moves → f move = true.
Proof.
  induction moves as [|m rest IH]; cbn [every_move].
  - split; [|done]. intros _ move []%elem_of_nil.
  - destruct (f m) eqn:Hm.
    + rewrite IH. split.
      * intros Hrest move [-> | Hin]%elem_of_cons; auto.
      * intros Hall move Hin. apply Hall. by right.
    + split; [done|]. intros Hall.
      rewrite <- Hm. apply Hall. left.
Qed.

Lemma winner_falsy (w : Winner) : winner_truthy w = false → w = W null.
Proof. by destruct w as [[]|]. Qed.

Lemma all_boards_complete (n : nat) (board : Board) :
  length board = n → In board (all_boards n).
Proof.
  revert board. induction n as [|n IH]; intros [|cell board] Hlen;
    simplify_eq/=.
  - by left.
  - apply in_flat_map. exists board. split; [by apply IH|].
    destruct cell; simpl; auto.
Qed.

(** Every board of nine cells passes [board_check]: by evaluation. *)
Lemma all_boards_checked : forallb board_check (all_boards 9) = true.
Proof. vm_compute. reflexivity. Qed.

Lemma board_checked (board : Board) :
  length board = 9%nat → board_check board = true.
Proof.
  intros Hlen. pose proof all_boards_checked as Hall.
  rewrite forallb_forall in Hall. by apply Hall, all_boards_complete.
Qed.

(** From a position that is not lost in advance, the move of [getBestMove]
    at hard difficulty leaves a position that is not lost either. *)
Lemma hard_move_keeps_safe (board board' : Board) (rng rng' : Rng)
    (bestMove : Z) :
  length board = 9%nat →
  count_mark X board = S (count_mark O board) →
  (checkWinner board).1 = W null →
  x_can_force_win board = false →
  getBestMove hard rng board = Some ((Some bestMove, rng'), board') →
  (checkWinner (array_set board bestMove O)).1 ≠ W X
  ∧ ((checkWinner (array_set board bestMove O)).1 = W null →
     x_reply_safe (array_set board bestMove O) = true).
Proof.
  intros Hlen Hcount Hprogress Hforce Hbest.
  pose proof (board_checked board Hlen) as Hcheck.
  unfold board_check in Hcheck.
  rewrite decide_True, decide_True, Hforce in Hcheck by done.
  unfold hard_move_safe in Hcheck.
  destruct (getBestMove_hard_agree board rng zero_rng) as (r & H1 & H2).
  rewrite H1 in Hbest. injection Hbest as -> _ _. rewrite H2 in Hcheck.
  destruct (checkWinner (array_set board bestMove O)).1 as [[]|]; done.
Qed.

Lemma not_losing_play (s s' : GameState) :
  not_losing s → play s s' → not_losing s'.
Proof.
  intros (Hok & Hmode & Hdiff & HnX & Hcases) Hplay.
  pose proof (state_ok_play s s' Hok Hplay) as Hok'.
  destruct Hok as (Hlen & Hw & Hturn).
  destruct Hplay as [s index Hrange Hcell Hwinner Hturn'
                    | s rng rng' bestMove b _ Hplayer Hwinner Hbest].
  - apply falsy_in_range_is_null in Hcell; [|done].
    apply winner_falsy in Hwinner as Hnull.
    destruct (Hcases Hnull) as [[HO _] | [HX Hsafe]]; [by destruct Hturn'|].
    destruct (makeMove_place s index Hcell Hwinner)
      as (Hb & Hp & Hw' & Hm & Hd).
    unfold not_losing. rewrite Hb, Hp, Hw', Hm, Hd, HX in *.
    unfold x_reply_safe in Hsafe. rewrite every_move_true in Hsafe.
    specialize (Hsafe index ltac:(by apply elem_of_getAvailableMoves)).
    simpl in Hsafe.
    split; [done|]. split; [done|]. split; [done|].
    destruct (checkWinner (array_set (board s) index X)).1 as [[]|] eqn:E;
      try done; (split; [done|]); try done.
    intros _. left. split; [done|]. by apply negb_true_iff.
  - apply winner_falsy in Hwinner as Hnull.
    destruct (Hcases Hnull) as [[_ Hforce] | [HX _]]; [|congruence].
    destruct Hturn as [[HX _] | [_ Hcount]]; [congruence|].
    assert (array_get (board s) bestMove = Some null) as Hcell
        by (by eapply getBestMove_available).
    destruct (makeMove_place s bestMove Hcell Hwinner)
      as (Hb & Hp & Hw' & Hm & Hd).
    rewrite Hdiff in Hbest.
    destruct (hard_move_keeps_safe (board s) b rng rng' bestMove)
      as [HnX' Hsafe]; try done; [congruence|].
    unfold not_losing. rewrite Hb, Hp, Hw', Hm, Hd, Hplayer in *.
    split; [done|]. split; [done|]. split; [done|]. split; [done|].
    intros Hprogress. right. split; [done|]. by apply Hsafe.
Qed.

Lemma not_losing_rtc_play (s s' : GameState) :
  not_losing s → rtc play s s' → not_losing s'.
Proof.
  intros Hs Hplay. induction Hplay as [|s s1 s' Hstep _ IH]; [done|].
  apply IH. by eapply not_losing_play.
Qed.

(** ** Claim C5 *)

Ltac click index :=
  eapply rtc_l;
  [ apply step_play, (play_click _ index);
    [ vm_compute; split; [discriminate | reflexivity]
    | vm_compute; reflexivity
    | vm_compute; reflexivity
    | intros [_ Hturn]; vm_compute in Hturn; discriminate ]
  | ].

Ltac computer move :=
  eapply rtc_l;
  [ apply step_play; eapply (play_computer _ zero_rng _ move _);
    [ reflexivity | reflexivity | reflexivity | vm_compute; reflexivity ]
  | ].

Lemma easy_game_reachable : reachable easy_game.
Proof.
  unfold reachable.
  eapply rtc_l; [apply (step_setGameMode _ pvc)|].
  eapply rtc_l; [apply (step_setDifficulty _ easy)|].
  click 0. computer 1. click 2. computer 3. click 4.
  apply rtc_refl.
Qed.

(** C5, as the claim states it, fails: the application reaches a board with
    [O] to move at hard difficulty from which the game, continued with the
    move of [getBestMove], is won by [X]. *)
Lemma C5_reachable_position_lost :
  reachable lost_position
  ∧ gameMode lost_position = pvc
  ∧ difficulty lost_position = hard
  ∧ currentPlayer lost_position = O
  ∧ winner lost_position = W null
  ∧ rtc play lost_position lost_game
  ∧ winner lost_game = W X.
Proof.
  split; [|repeat split].
  - eapply rtc_r; [apply easy_game_reachable|]. apply step_setDifficulty.
  - eapply rtc_l.
    { eapply (play_computer _ zero_rng _ 5 _);
        [reflexivity | reflexivity | reflexivity | vm_compute; reflexivity]. }
    eapply rtc_l; [|apply rtc_refl].
    apply (play_click _ 6).
    + vm_compute. split; [discriminate | reflexivity].
    + vm_compute. reflexivity.
    + vm_compute. reflexivity.
    + intros [_ Hturn]. vm_compute in Hturn. discriminate.
Qed.

(** C5 (amended): from any reachable state with [O] to move at hard
    difficulty in a game against the computer, if [X] cannot already force a
    win from its board, then playing the move [getBestMove] returns and
    continuing with its moves against any play of [X] never reaches a state
    in which [X] has won. *)
Theorem C5_hard_never_loses (s s' : GameState) :
  reachable s →
  gameMode s = pvc →
  difficulty s = hard →
  currentPlayer s = O →
  winner s = W null →
  x_can_force_win (board s) = false →
  rtc play s s' →
  winner s' ≠ W X.
Proof.
  intros Hreach Hmode Hdiff Hplayer Hwinner Hforce Hplay.
  assert (not_losing s) as Hs.
  { split; [by apply reachable_state_ok|].
    split; [done|]. split; [done|]. split; [congruence|].
    intros _. by left. }
  by destruct (not_losing_rtc_play s s' Hs Hplay) as (_ & _ & _ & HnX & _).
Qed.

Lemma C5_hard_never_loses_witness : winner centre_game ≠ W X.
Proof.
  apply (C5_hard_never_loses centre_opening centre_game).
  - unfold reachable.
    eapply rtc_l; [apply (step_setGameMode _ pvc)|].
    eapply rtc_l; [apply (step_setDifficulty _ hard)|].
    click 4. apply rtc_refl.
  - reflexivity.
  - reflexivity.
  - reflexivity.
  - reflexivity.
  - vm_compute. reflexivity.
  - eapply rtc_l.
    { eapply (play_computer _ zero_rng _ 0 _);
        [reflexivity | reflexivity | reflexivity | vm_compute; reflexivity]. }
    eapply rtc_l; [|apply rtc_refl].
    apply (play_click _ 8).
    + vm_compute. split; [discriminate | reflexivity].
    + vm_compute. reflexivity.
    + vm_compute. reflexivity.
    + intros [_ Hturn]. vm_compute in Hturn. discriminate.
Defined.

(** A game played at hard difficulty from the first move on is never won by
    [X]. *)
Lemma hard_game_from_start (s' : GameState) :
  rtc play (setDifficulty hard (setGameMode pvc initialState)) s' →
  winner s' ≠ W X.
Proof.
  intros Hplay.
  assert (not_losing (setDifficulty hard (setGameMode pvc initialState))) as Hs.
  { split.
    { apply reachable_state_ok. unfold reachable.
      eapply rtc_l; [apply (step_setGameMode _ pvc)|].
      eapply rtc_l; [apply (step_setDifficulty _ hard)|]. apply rtc_refl. }
    split; [done|]. split; [done|]. split; [done|].
    intros _. right. split; [done|]. vm_compute. reflexivity. }
  by destruct (not_losing_rtc_play _ s' Hs Hplay) as (_ & _ & _ & HnX & _).
Qed.

(** * Further properties *)

(** ** [getAvailableMoves] and the moves [getBestMove] returns *)

Lemma available_from_length (board : Board) (k : nat) :
  length (filter (λ index, index ≠ -1)
            (imap (λ (index : nat) (cell : Player),
                     if decide (cell = null) then Z.of_nat (k + index) else -1)
                  board))
  = count_null board.
Proof.
  unfold count_null. revert k.
  induction board as [|cell board IH]; intros k; simpl; [done|].
  rewrite (imap_ext _ (λ (index : nat) (cell : Player),
             if decide (cell = null) then Z.of_nat (S k + index) else -1))
    by (intros; simpl; by replace (k + S i)%nat with (S (k + i))%nat by lia).
  destruct (decide (cell = null)).
  - rewrite filter_cons_True by lia. rewrite (filter_cons_True (λ c, c = null))
      by done. cbn [length]. f_equal. apply (IH (S k)).
  - rewrite filter_cons_False by (intros ?; done).
    rewrite (filter_cons_False (λ c, c = null)) by done. apply (IH (S k)).
Qed.

(** X1: [getAvailableMoves] returns exactly the indices of the cells that
    hold [null], each once: an index is in the result if and only if the
    board holds [null] there, and the result has as many entries as the
    board has empty cells. *)
Theorem X1_getAvailableMoves_exact (board : Board) :
  (∀ move, move ∈ getAvailableMoves board ↔ array_get board move = Some null)
  ∧ length (getAvailableMoves board) = count_null board
  ∧ NoDup (getAvailableMoves board).
Proof.
  split; [apply elem_of_getAvailableMoves|]. split.
  - apply (available_from_length board 0).
  - pose proof (getAvailableMoves_sorted board) as Hsorted.
    induction Hsorted as [|move rest _ IH Hlt]; constructor; [|done].
    intros Hin. rewrite Forall_forall in Hlt. specialize (Hlt move Hin). lia.
Qed.

(** X2: whatever the difficulty and the draws, [getBestMove] returns either
    [undefined] or the index of an empty cell of the board, never the index
    of an occupied cell or an index outside the board. *)
Theorem X2_getBestMove_empty_cell (difficulty : Difficulty) (rng : Rng)
    (board : Board) :
  ∃ r rng',
    getBestMove difficulty rng board = Some ((r, rng'), board)
    ∧ ∀ move, r = Some move →
        array_get board move = Some null
        ∧ 0 ≤ move < Z.of_nat (length board).
Proof.
  destruct (getBestMove_returns difficulty rng board) as (r & rng' & Hr).
  exists r, rng'. split; [done|]. intros move ->.
  assert (array_get board move = Some null) as Hcell
      by (by eapply getBestMove_available).
  split; [done|]. by eapply array_get_in_range.
Qed.

Lemma random_move_defined (availableMoves : list Z) (r : Q) :
  availableMoves ≠ [] → (0 <= r)%Q → (r < 1)%Q →
  ∃ move, random_move availableMoves r = Some move.
Proof.
  intros Hmoves H0 H1. unfold random_move.
  set (len := Z.of_nat (length availableMoves)).
  assert (0 < len) as Hlen.
  { subst len. destruct availableMoves; [done|]. simpl. lia. }
  assert (0 ≤ Qfloor (r * inject_Z len)) as Hge.
  { change 0 with (Qfloor 0). apply Qfloor_resp_le.
    apply Qmult_le_0_compat; [done|].
    change 0%Q with (inject_Z 0). rewrite <- Zle_Qle. lia. }
  assert (Qfloor (r * inject_Z len) < len) as Hlt.
  { rewrite Zlt_Qlt. eapply Qle_lt_trans; [apply Qfloor_le|].
    eapply Qlt_le_trans.
    - apply Qmult_lt_compat_r; [|exact H1].
      change 0%Q with (inject_Z 0). rewrite <- Zlt_Qlt. lia.
    - rewrite Qmult_1_l. apply Qle_refl. }
  unfold array_get. destruct (Z.ltb_spec (Qfloor (r * inject_Z len)) 0); [lia|].
  apply lookup_lt_is_Some_2. lia.
Qed.

Lemma getBestMove_defined (difficulty : Difficulty) (rng : Rng)
    (board : Board) (index : Z) :
  array_get board index = Some null →
  unit_draws rng →
  ∃ move rng',
    getBestMove difficulty rng board = Some ((Some move, rng'), board)
    ∧ array_get board move = Some null.
Proof.
  intros Hcell Hunit.
  assert (getAvailableMoves board ≠ []) as Hmoves.
  { intros Hnil. apply elem_of_getAvailableMoves in Hcell.
    rewrite Hnil in Hcell. by apply elem_of_nil in Hcell. }
  destruct (getBestMove_returns difficulty rng board) as (r & rng' & Hr).
  destruct r as [move|].
  { exists move, rng'. split; [done|]. by eapply getBestMove_available. }
  exfalso. revert Hr.
  destruct (optimal_play_spec board Hmoves) as (best & value & Hbest & _).
  destruct (random_move_defined (getAvailableMoves board) (rng 1%nat) Hmoves)
    as [move Hmove]; [apply Hunit..|].
  unfold getBestMove, bind at 1, read_board.
  destruct difficulty; simpl.
  - destruct (Qlt_le_dec _ _).
    + unfold ret. rewrite Hmove. done.
    + unfold bind. rewrite Hbest. done.
  - destruct (Qlt_le_dec _ _).
    + unfold ret. rewrite Hmove. done.
    + unfold bind. rewrite Hbest. done.
  - unfold bind. rewrite Hbest. done.
Qed.

(** X3: on a board with an empty cell, with draws in [[0, 1)],
    [getBestMove] returns the index of an empty cell, at every difficulty:
    [undefined] is returned on boards without an empty cell only. *)
Theorem X3_getBestMove_defined (difficulty : Difficulty) (rng : Rng)
    (board : Board) (index : Z) :
  array_get board index = Some null →
  unit_draws rng →
  ∃ move rng',
    getBestMove difficulty rng board = Some ((Some move, rng'), board)
    ∧ array_get board move = Some null.
Proof. apply getBestMove_defined. Qed.

Lemma X3_getBestMove_defined_witness :
  ∃ move rng',
    getBestMove easy zero_rng scenario_board
    = Some ((Some move, rng'), scenario_board)
    ∧ array_get scenario_board move = Some null.
Proof.
  apply (X3_getBestMove_defined easy zero_rng scenario_board 2).
  - reflexivity.
  - intros n. split; [discriminate | reflexivity].
Defined.

Lemma Qfloor_fraction (k n : nat) :
  Qfloor ((Z.of_nat k # Pos.of_succ_nat n) * inject_Z (Z.of_nat (S n)))
  = Z.of_nat k.
Proof.
  unfold Qfloor, Qmult, inject_Z. cbn [Qnum Qden].
  rewrite Pos.mul_1_r, Zpos_P_of_succ_nat.
  replace (Z.succ (Z.of_nat n)) with (Z.of_nat (S n)) by lia.
  apply Z.div_mul. lia.
Qed.

(** X4: at easy and at medium difficulty every empty cell can be the move:
    for each empty cell there are draws in [[0, 1)] with which
    [getBestMove] returns it. *)
Theorem X4_random_move_reaches_every_cell (difficulty : Difficulty)
    (board : Board) (move : Z) :
  difficulty ≠ hard →
  array_get board move = Some null →
  ∃ r rng',
    unit_draws (second_draw r)
    ∧ getBestMove difficulty (second_draw r) board
      = Some ((Some move, rng'), board).
Proof.
  intros Hdiff Hcell.
  apply elem_of_getAvailableMoves, list_elem_of_lookup_1 in Hcell as [k Hk].
  apply lookup_lt_Some in Hk as Hlt.
  destruct (length (getAvailableMoves board)) as [|n] eqn:Hlen; [lia|].
  exists (Z.of_nat k # Pos.of_succ_nat n)%Q. eexists. split.
  - intros [|[|i]]; simpl; try (split; [discriminate | reflexivity]).
    unfold Qle, Qlt. cbn [Qnum Qden]. rewrite Zpos_P_of_succ_nat. lia.
  - assert (random_move (getAvailableMoves board)
              (Z.of_nat k # Pos.of_succ_nat n) = Some move) as Hmove.
    { unfold random_move. rewrite Hlen, Qfloor_fraction.
      by rewrite array_get_of_nat. }
    unfold getBestMove, bind at 1, read_board.
    destruct difficulty; [| |done]; simpl.
    + destruct (Qlt_le_dec 0 (7 # 10)) as [_|Hle]; [|by destruct Hle].
      unfold ret. rewrite Hmove. reflexivity.
    + destruct (Qlt_le_dec 0 (3 # 10)) as [_|Hle]; [|by destruct Hle].
      unfold ret. rewrite Hmove. reflexivity.
Qed.

Lemma X4_random_move_witness :
  ∃ r rng',
    unit_draws (second_draw r)
    ∧ getBestMove medium (second_draw r) scenario_board
      = Some ((Some 7, rng'), scenario_board).
Proof.
  apply (X4_random_move_reaches_every_cell medium scenario_board 7).
  - discriminate.
  - reflexivity.
Defined.

(** ** [makeMove] on an empty cell *)

Lemma makeMove_effect (s : GameState) (index : Z) :
  array_get (board s) index = Some null →
  winner_truthy (winner s) = false →
  array_get (board (makeMove s index).1) index = Some (currentPlayer s)
  ∧ (∀ j, j ≠ index →
       array_get (board (makeMove s index).1) j = array_get (board s) j)
  ∧ (winner (makeMove s index).1, winningLine (makeMove s index).1)
    = checkWinner (board (makeMove s index).1)
  ∧ scores_X (scores (makeMove s index).1)
    = scores_X (scores s)
      + (if decide (winner (makeMove s index).1 = W X) then 1 else 0)
  ∧ scores_O (scores (makeMove s index).1)
    = scores_O (scores s)
      + (if decide (winner (makeMove s index).1 = W O) then 1 else 0)
  ∧ scores_ties (scores (makeMove s index).1)
    = scores_ties (scores s)
      + (if decide (winner (makeMove s index).1 = tie) then 1 else 0)
  ∧ ((makeMove s index).2 = None ↔ winner (makeMove s index).1 = W null).
Proof.
  intros Hcell Hwinner.
  pose proof (array_get_in_range _ _ _ Hcell) as Hrange.
  unfold makeMove. rewrite Hcell, Hwinner. cbn [truthy orb].
  destruct (checkWinner (array_set (board s) index (currentPlayer s)))
    as [w l] eqn:E.
  cbn [fst snd board winner winningLine scores].
  split; [by apply array_get_set_eq|].
  split; [intros j Hj; by apply array_get_set_ne|].
  split; [done|].
  destruct w as [[]|]; cbn; repeat split;
    repeat case_decide; try lia; try done.
  all: intros Htoast; by repeat case_match.
Qed.

(** X5: [makeMove] on an empty cell of a game in progress writes the mark of
    the player to move into that cell and into no other, passes the turn to
    the other player, records the result of [checkWinner] on the new board,
    adds one to the score of that result and to no other score, and raises a
    notification exactly when the move ended the game; mode and difficulty
    stay. *)
Theorem X5_makeMove_places (s : GameState) (index : Z) :
  array_get (board s) index = Some null →
  winner_truthy (winner s) = false →
  array_get (board (makeMove s index).1) index = Some (currentPlayer s)
  ∧ (∀ j, j ≠ index →
       array_get (board (makeMove s index).1) j = array_get (board s) j)
  ∧ length (board (makeMove s index).1) = length (board s)
  ∧ currentPlayer (makeMove s index).1
    = (if decide (currentPlayer s = X) then O else X)
  ∧ (winner (makeMove s index).1, winningLine (makeMove s index).1)
    = checkWinner (board (makeMove s index).1)
  ∧ gameMode (makeMove s index).1 = gameMode s
  ∧ difficulty (makeMove s index).1 = difficulty s
  ∧ scores_X (scores (makeMove s index).1)
    = scores_X (scores s)
      + (if decide (winner (makeMove s index).1 = W X) then 1 else 0)
  ∧ scores_O (scores (makeMove s index).1)
    = scores_O (scores s)
      + (if decide (winner (makeMove s index).1 = W O) then 1 else 0)
  ∧ scores_ties (scores (makeMove s index).1)
    = scores_ties (scores s)
      + (if decide (winner (makeMove s index).1 = tie) then 1 else 0)
  ∧ ((makeMove s index).2 = None ↔ winner (makeMove s index).1 = W null).
Proof.
  intros Hcell Hwinner.
  destruct (makeMove_place s index Hcell Hwinner) as (Hb & Hp & _ & Hm & Hd).
  destruct (makeMove_effect s index Hcell Hwinner)
    as (Hi & Hj & Hw & HX & HO & Ht & Htoast).
  repeat (split; [done|]).
  split; [by rewrite Hb, length_array_set|].
  repeat (split; [done|]). done.
Qed.

Lemma X5_makeMove_places_witness :
  array_get (board (makeMove initialState 4).1) 4 = Some X
  ∧ currentPlayer (makeMove initialState 4).1 = O.
Proof.
  destruct (X5_makeMove_places initialState 4) as (Hcell & _ & _ & Hturn & _).
  - reflexivity.
  - reflexivity.
  - split; [exact Hcell | exact Hturn].
Defined.

(** ** What every reachable state satisfies *)

Lemma well_formed_initial : well_formed initialState.
Proof. split; [apply state_ok_initial|]. by repeat split. Qed.

Lemma well_formed_makeMove (s : GameState) (index : Z) :
  well_formed s →
  array_get (board s) index = Some null →
  winner_truthy (winner s) = false →
  well_formed (makeMove s index).1.
Proof.
  intros (Hok & Hline & HX & HO & Ht) Hcell Hwinner.
  destruct (makeMove_effect s index Hcell Hwinner)
    as (_ & _ & Hw & HX' & HO' & Ht' & _).
  split; [by apply state_ok_makeMove|].
  split; [by rewrite <- Hw|].
  rewrite HX', HO', Ht'. split; [|split]; repeat case_decide; lia.
Qed.

Lemma well_formed_step (s s' : GameState) :
  well_formed s → step s s' → well_formed s'.
Proof.
  intros Hwf Hstep.
  destruct Hstep as [s s' Hplay | s | s | s mode | s diff].
  - destruct Hplay as [s index Hrange Hcell Hwinner _
                      | s rng rng' bestMove b _ _ Hwinner Hbest].
    + apply well_formed_makeMove; [done| |done].
      by apply falsy_in_range_is_null.
    + apply well_formed_makeMove; [done| |done].
      by eapply getBestMove_available.
  - destruct Hwf as (_ & _ & HX & HO & Ht).
    split; [apply state_ok_initial|]. by repeat split.
  - destruct Hwf as (Hok & Hline & _). split; [exact Hok|]. by repeat split.
  - destruct Hwf as (_ & _ & HX & HO & Ht).
    split; [apply state_ok_initial|]. by repeat split.
  - exact Hwf.
Qed.

Lemma reachable_well_formed (s : GameState) : reachable s → well_formed s.
Proof.
  unfold reachable. revert s.
  apply (rtc_ind_r (λ s, well_formed s) initialState).
  - apply well_formed_initial.
  - intros s s' _ Hstep Hwf. by eapply well_formed_step.
Qed.

(** X6: in every state the application can reach, whatever was clicked and
    whatever the computer drew, the board has nine cells, the recorded winner
    and winning line are what [checkWinner] returns on the board, [X] has as
    many marks as [O] on its own turn and one more on [O]'s turn, and no
    score is negative. *)
Theorem X6_reachable_invariant (s : GameState) :
  reachable s →
  length (board s) = 9%nat
  ∧ (winner s, winningLine s) = checkWinner (board s)
  ∧ ((currentPlayer s = X
      ∧ count_mark X (board s) = count_mark O (board s))
     ∨ (currentPlayer s = O
        ∧ count_mark X (board s) = S (count_mark O (board s))))
  ∧ 0 ≤ scores_X (scores s)
  ∧ 0 ≤ scores_O (scores s)
  ∧ 0 ≤ scores_ties (scores s).
Proof.
  intros ((Hlen & Hw & Hturn) & Hline & Hscores)%reachable_well_formed.
  split; [done|]. split; [|done].
  rewrite Hw, Hline. by destruct (checkWinner (board s)).
Qed.

Lemma X6_reachable_invariant_witness :
  length (board easy_game) = 9%nat
  ∧ (winner easy_game, winningLine easy_game) = checkWinner (board easy_game).
Proof.
  destruct (X6_reachable_invariant easy_game) as (Hlen & Hw & _).
  - apply easy_game_reachable.
  - split; [exact Hlen | exact Hw].
Defined.

Lemma checkWinner_loop_Some_in (board : Board) (combinations : list Line)
    p line :
  checkWinner_loop board combinations = Some (p, line) →
  line ∈ combinations ∧ line_complete board line p.
Proof.
  induction combinations as [|l rest IH]; cbn [checkWinner_loop]; [done|].
  destruct (line_matches board l) eqn:Hm.
  - intros [= <- <-]. split; [left|].
    apply line_matches_complete in Hm as [m Hm].
    destruct Hm as (Hmark & Ha & Hb & Hc) eqn:E. clear E.
    rewrite Ha. by repeat split.
  - intros [Hin Hline]%IH. split; [by right | done].
Qed.

(** The three results of [checkWinner] and what each says of the board. *)
Lemma checkWinner_result_cases (board : Board) :
  (∃ m line, (m = X ∨ m = O)
     ∧ checkWinner board = (W m, Some line)
     ∧ line ∈ winningCombinations ∧ line_complete board line m)
  ∨ (checkWinner board = (tie, None)
     ∧ (∀ index, array_get board index ≠ Some null)
     ∧ ∀ l m, l ∈ winningCombinations → ¬ line_complete board l m)
  ∨ (checkWinner board = (W null, None)
     ∧ (∃ index, array_get board index = Some null)
     ∧ ∀ l m, l ∈ winningCombinations → ¬ line_complete board l m).
Proof.
  unfold checkWinner.
  destruct (checkWinner_loop board winningCombinations) as [[p line]|] eqn:E.
  - left. apply checkWinner_loop_Some_in in E as [Hin Hline].
    exists p, line. by destruct Hline as (Hp & ?) eqn:E'.
  - right.
    assert (∀ l m, l ∈ winningCombinations → ¬ line_complete board l m)
      as Hnone.
    { intros l m Hl. revert m. apply line_matches_false.
      by eapply checkWinner_loop_None_inv. }
    destruct (forallb _ board) eqn:Hfull; [left | right];
      (split; [done|]); (split; [|done]).
    + intros index [_ Hget]%array_get_Some.
      by eapply forallb_not_null_true in Hfull.
    + apply forallb_not_null_false in Hfull as [i Hi].
      exists (Z.of_nat i). by rewrite array_get_of_nat.
Qed.

Lemma recorded_result_sound (s : GameState) :
  reachable s →
  match winner s with
  | W null =>
      winningLine s = None
      ∧ (∃ index, array_get (board s) index = Some null)
      ∧ ∀ l m, l ∈ winningCombinations → ¬ line_complete (board s) l m
  | tie =>
      winningLine s = None
      ∧ (∀ index, array_get (board s) index ≠ Some null)
      ∧ ∀ l m, l ∈ winningCombinations → ¬ line_complete (board s) l m
  | W m =>
      ∃ line, winningLine s = Some line
              ∧ line ∈ winningCombinations
              ∧ line_complete (board s) line m
  end.
Proof.
  intros ((_ & Hw & _) & Hline & _)%reachable_well_formed.
  rewrite Hw, Hline.
  destruct (checkWinner_result_cases (board s))
    as [(m & line & [-> | ->] & -> & Hin & Hcomplete)
       | [(-> & Hfull & Hnone) | (-> & Hempty & Hnone)]]; simpl; eauto.
Qed.

(** X7: what a reachable state records is true of its board.  With no
    winner recorded the board has an empty cell and no complete line; with a
    tie recorded it has neither an empty cell nor a complete line; with [X]
    or [O] recorded the recorded winning line is a line of the table and its
    three cells hold the winner's mark. *)
Theorem X7_recorded_result_sound (s : GameState) :
  reachable s →
  match winner s with
  | W null =>
      winningLine s = None
      ∧ (∃ index, array_get (board s) index = Some null)
      ∧ ∀ l m, l ∈ winningCombinations → ¬ line_complete (board s) l m
  | tie =>
      winningLine s = None
      ∧ (∀ index, array_get (board s) index ≠ Some null)
      ∧ ∀ l m, l ∈ winningCombinations → ¬ line_complete (board s) l m
  | W m =>
      ∃ line, winningLine s = Some line
              ∧ line ∈ winningCombinations
              ∧ line_complete (board s) line m
  end.
Proof. apply recorded_result_sound. Qed.

Lemma X7_recorded_result_witness :
  ∃ line, winningLine lost_game = Some line
          ∧ line ∈ winningCombinations
          ∧ line_complete (board lost_game) line X.
Proof.
  assert (reachable lost_game) as Hreach.
  { unfold reachable. eapply rtc_r; [eapply rtc_r|].
    - eapply rtc_r; [apply easy_game_reachable|].
      apply (step_setDifficulty _ hard).
    - apply step_play.
      eapply (play_computer _ zero_rng _ 5 _);
        [reflexivity | reflexivity | reflexivity | vm_compute; reflexivity].
    - apply step_play, (play_click _ 6).
      + vm_compute. split; [discriminate | reflexivity].
      + vm_compute. reflexivity.
      + vm_compute. reflexivity.
      + intros [_ Hturn]. vm_compute in Hturn. discriminate. }
  exact (X7_recorded_result_sound lost_game Hreach).
Defined.

(** ** Who wins, and how long a game lasts *)

(** A line that is complete after a cell was written and was not before
    runs through that cell and holds the mark written. *)
Lemma new_line_through_cell (board : Board) (index : Z) (p m : Player)
    (line : Line) :
  0 ≤ index < Z.of_nat (length board) →
  ¬ line_complete board line m →
  line_complete (array_set board index p) line m →
  on_line index line ∧ m = p.
Proof.
  intros Hrange Hbefore (Hm & Ha & Hb & Hc).
  assert (∀ j, array_get (array_set board index p) j = Some m →
               j = index ∧ m = p ∨ array_get board j = Some m) as Hcell.
  { intros j Hj. destruct (decide (j = index)) as [-> | Hne].
    - rewrite array_get_set_eq in Hj by done. left. by simplify_eq.
    - rewrite array_get_set_ne in Hj by done. by right. }
  unfold on_line.
  destruct (Hcell _ Ha) as [[-> ->] | Ha']; [by auto|].
  destruct (Hcell _ Hb) as [[-> ->] | Hb']; [by auto|].
  destruct (Hcell _ Hc) as [[-> ->] | Hc']; [by auto|].
  by destruct Hbefore.
Qed.

(** X8: in a reachable state, a move that ends the game with a winner is
    won by the player who made it, and the winning line recorded runs
    through the cell just filled: nobody wins on the other player's move. *)
Theorem X8_winner_is_the_mover (s : GameState) (index : Z) (m : Player) :
  reachable s →
  array_get (board s) index = Some null →
  winner_truthy (winner s) = false →
  winner (makeMove s index).1 = W m →
  m ≠ null →
  m = currentPlayer s
  ∧ ∃ line, winningLine (makeMove s index).1 = Some line
            ∧ line ∈ winningCombinations
            ∧ on_line index line.
Proof.
  intros Hreach Hcell Hwinner Hw Hm.
  pose proof (recorded_result_sound s Hreach) as Hs.
  rewrite (winner_falsy _ Hwinner) in Hs. destruct Hs as (_ & _ & Hnone).
  destruct (makeMove_place s index Hcell Hwinner) as (Hb & _).
  destruct (makeMove_effect s index Hcell Hwinner) as (_ & _ & Hcw & _).
  rewrite Hb in Hcw.
  destruct (checkWinner_result_cases
              (array_set (board s) index (currentPlayer s)))
    as [(m' & line & _ & E & Hin & Hline)
       | [(E & _) | (E & _)]]; rewrite E in Hcw;
    injection Hcw as Hw' Hl'; rewrite Hw in Hw';
    [injection Hw' as -> | done | by simplify_eq].
  destruct (new_line_through_cell (board s) index (currentPlayer s) m' line)
    as [Hon ->]; [by eapply array_get_in_range|by apply Hnone|done|].
  split; [done|]. by exists line.
Qed.

Lemma lost_position_answered_reachable :
  reachable (makeMove lost_position 5).1.
Proof.
  unfold reachable. eapply rtc_r.
  - eapply rtc_r; [apply easy_game_reachable|].
    apply (step_setDifficulty _ hard).
  - apply step_play.
    eapply (play_computer _ zero_rng _ 5 _);
      [reflexivity | reflexivity | reflexivity | vm_compute; reflexivity].
Qed.

Lemma X8_winner_is_the_mover_witness :
  X = currentPlayer (makeMove lost_position 5).1
  ∧ ∃ line, winningLine lost_game = Some line
            ∧ line ∈ winningCombinations
            ∧ on_line 6 line.
Proof.
  apply (X8_winner_is_the_mover (makeMove lost_position 5).1 6 X).
  - apply lost_position_answered_reachable.
  - reflexivity.
  - reflexivity.
  - reflexivity.
  - discriminate.
Defined.

Lemma reachable_play (s s' : GameState) :
  reachable s → play s s' → reachable s'.
Proof.
  unfold reachable. intros Hreach Hplay.
  eapply rtc_r; [exact Hreach|]. by apply step_play.
Qed.

Lemma play_places_on_empty (s s' : GameState) :
  play s s' →
  ∃ index, s' = (makeMove s index).1
           ∧ array_get (board s) index = Some null
           ∧ winner_truthy (winner s) = false.
Proof.
  intros [s0 index Hrange Hcell Hwinner _
         | s0 rng rng' bestMove b _ _ Hwinner Hbest].
  - exists index. split; [done|]. split; [|done].
    by apply falsy_in_range_is_null.
  - exists bestMove. split; [done|]. split; [|done].
    by eapply getBestMove_available.
Qed.

Lemma play_fills_one_cell (s s' : GameState) :
  state_ok s → play s s' →
  count_null (board s) = S (count_null (board s')).
Proof.
  intros (_ & _ & Hturn) (index & -> & Hcell & Hwinner)%play_places_on_empty.
  destruct (makeMove_place s index Hcell Hwinner) as (-> & _).
  apply count_null_array_set; [done|].
  destruct Hturn as [[-> _] | [-> _]]; done.
Qed.

(** X9: every move of a game, by a click or by the computer, fills exactly
    one empty cell: after [n] moves from a reachable state the board has [n]
    empty cells fewer, so a game has at most nine moves. *)
Theorem X9_game_length (s s' : GameState) (n : nat) :
  reachable s →
  nsteps play n s s' →
  (n + count_null (board s') = count_null (board s))%nat ∧ (n ≤ 9)%nat.
Proof.
  intros Hreach Hplay.
  assert (n + count_null (board s') = count_null (board s))%nat as Hcount.
  { induction Hplay as [s|n s s1 s' Hstep Hrest IH]; [done|].
    pose proof (play_fills_one_cell s s1
                  (reachable_state_ok s Hreach) Hstep) as Hone.
    specialize (IH (reachable_play s s1 Hreach Hstep)). lia. }
  split; [done|].
  destruct (reachable_state_ok s Hreach) as (Hlen & _).
  pose proof (count_null_le_length (board s)). lia.
Qed.

Lemma X9_game_length_witness :
  (2 + count_null (board lost_game) = count_null (board lost_position))%nat
  ∧ (2 ≤ 9)%nat.
Proof.
  apply (X9_game_length lost_position lost_game 2).
  - unfold reachable. eapply rtc_r; [apply easy_game_reachable|].
    apply (step_setDifficulty _ hard).
  - eapply nsteps_l; [|eapply nsteps_l; [|apply nsteps_O]].
    + eapply (play_computer _ zero_rng _ 5 _);
        [reflexivity | reflexivity | reflexivity | vm_compute; reflexivity].
    + apply (play_click _ 6).
      * vm_compute. split; [discriminate | reflexivity].
      * vm_compute. reflexivity.
      * vm_compute. reflexivity.
      * intros [_ Hturn]. vm_compute in Hturn. discriminate.
Defined.

(** X10: in a reachable state in which the computer move effect fires
    (against the computer, [O] to move, game not over), with draws in
    [[0, 1)], [getBestMove] returns the index of an empty cell, at every
    difficulty, and [makeMove] puts [O] there and passes the turn to [X]:
    [makeMove] is never called with [undefined] and the computer never
    skips its turn. *)
Theorem X10_computer_always_moves (s : GameState) (rng : Rng) :
  reachable s →
  gameMode s = pvc →
  currentPlayer s = O →
  winner_truthy (winner s) = false →
  unit_draws rng →
  ∃ move rng',
    getBestMove (difficulty s) rng (board s)
    = Some ((Some move, rng'), board s)
    ∧ array_get (board s) move = Some null
    ∧ play s (makeMove s move).1
    ∧ array_get (board (makeMove s move).1) move = Some O
    ∧ currentPlayer (makeMove s move).1 = X.
Proof.
  intros Hreach Hmode Hplayer Hwinner Hunit.
  pose proof (recorded_result_sound s Hreach) as Hs.
  rewrite (winner_falsy _ Hwinner) in Hs.
  destruct Hs as (_ & [index Hindex] & _).
  destruct (getBestMove_defined (difficulty s) rng (board s) index Hindex Hunit)
    as (move & rng' & Hbest & Hcell).
  exists move, rng'. split; [done|]. split; [done|].
  split; [by eapply play_computer|].
  destruct (makeMove_place s move Hcell Hwinner) as (_ & Hp & _).
  destruct (makeMove_effect s move Hcell Hwinner) as (Hset & _).
  rewrite Hset, Hp, Hplayer. done.
Qed.

Lemma X10_computer_always_moves_witness :
  ∃ move rng',
    getBestMove (difficulty centre_opening) zero_rng (board centre_opening)
    = Some ((Some move, rng'), board centre_opening)
    ∧ array_get (board centre_opening) move = Some null
    ∧ play centre_opening (makeMove centre_opening move).1
    ∧ array_get (board (makeMove centre_opening move).1) move = Some O
    ∧ currentPlayer (makeMove centre_opening move).1 = X.
Proof.
  apply (X10_computer_always_moves centre_opening zero_rng).
  - unfold reachable.
    eapply rtc_l; [apply (step_setGameMode _ pvc)|].
    eapply rtc_l; [apply (step_setDifficulty _ hard)|].
    click 4. apply rtc_refl.
  - reflexivity.
  - reflexivity.
  - reflexivity.
  - intros n. split; [discriminate | reflexivity].
Defined.

(** ** The move at hard difficulty: win first, block second *)

(** Every board of nine cells passes [tactics_check]: by evaluation. *)
Lemma all_boards_tactics : forallb tactics_check (all_boards 9) = true.
Proof. vm_compute. reflexivity. Qed.

Lemma board_tactics (board : Board) :
  length board = 9%nat → tactics_check board = true.
Proof.
  intros Hlen. pose proof all_boards_tactics as Hall.
  rewrite forallb_forall in Hall. by apply Hall, all_boards_complete.
Qed.

Lemma hard_move_spec (board : Board) (rng : Rng) (move : Z) :
  hard_move board = Some move →
  getBestMove hard rng board = Some ((Some move, rng), board).
Proof.
  unfold hard_move. intros Hmove.
  destruct (getBestMove_hard_agree board zero_rng rng) as (r & H1 & H2).
  rewrite H1 in Hmove. by subst r.
Qed.

Lemma elem_of_winning_moves (p : Player) (board : Board) (move : Z) :
  move ∈ winning_moves p board
  ↔ array_get board move = Some null
    ∧ (checkWinner (array_set board move p)).1 = W p.
Proof.
  unfold winning_moves, wins_at.
  rewrite list_elem_of_filter, elem_of_getAvailableMoves, bool_decide_eq_true.
  tauto.
Qed.

Lemma winning_moves_sorted (p : Player) (board : Board) :
  StronglySorted Z.lt (winning_moves p board).
Proof.
  unfold winning_moves.
  pose proof (getAvailableMoves_sorted board) as Hsorted.
  induction Hsorted as [|move rest _ IH Hlt]; [constructor|].
  rewrite filter_cons. case_decide; [|done].
  constructor; [done|].
  rewrite Forall_forall in *. intros m [_ Hm]%list_elem_of_filter. auto.
Qed.

(** X11: in a game in progress with [O] to move, when [O] can complete a
    line at once, the move [getBestMove] returns at hard difficulty
    completes a line of [O], and it is the lowest-index cell that does. *)
Theorem X11_hard_takes_the_win (board : Board) (rng : Rng) (index : Z) :
  length board = 9%nat →
  count_mark X board = S (count_mark O board) →
  (checkWinner board).1 = W null →
  array_get board index = Some null →
  (checkWinner (array_set board index O)).1 = W O →
  ∃ best,
    getBestMove hard rng board = Some ((Some best, rng), board)
    ∧ array_get board best = Some null
    ∧ (checkWinner (array_set board best O)).1 = W O
    ∧ best ≤ index.
Proof.
  intros Hlen Hcount Hprogress Hcell Hwin.
  pose proof (board_tactics board Hlen) as Hcheck.
  unfold tactics_check in Hcheck.
  rewrite !decide_True in Hcheck by done.
  assert (index ∈ winning_moves O board) as Hin
      by (by apply elem_of_winning_moves).
  pose proof (winning_moves_sorted O board) as Hsorted.
  destruct (winning_moves O board) as [|best rest] eqn:E;
    [by apply elem_of_nil in Hin|].
  apply bool_decide_eq_true in Hcheck.
  assert (best ∈ winning_moves O board) as Hbest by (rewrite E; left).
  apply elem_of_winning_moves in Hbest as [Hempty Hwins].
  exists best. split; [by apply hard_move_spec|].
  split; [done|]. split; [done|].
  apply StronglySorted_inv in Hsorted as [_ Hlt].
  rewrite Forall_forall in Hlt.
  apply elem_of_cons in Hin as [-> | Hin]; [lia|].
  specialize (Hlt index Hin). lia.
Qed.

Lemma X11_hard_takes_the_win_witness :
  ∃ best,
    getBestMove hard zero_rng [X; X; null; O; O; null; X; null; null]
    = Some ((Some best, zero_rng), [X; X; null; O; O; null; X; null; null])
    ∧ array_get [X; X; null; O; O; null; X; null; null] best = Some null
    ∧ (checkWinner
         (array_set [X; X; null; O; O; null; X; null; null] best O)).1 = W O
    ∧ best ≤ 5.
Proof.
  apply (X11_hard_takes_the_win
           [X; X; null; O; O; null; X; null; null] zero_rng 5); reflexivity.
Defined.

(** X12: in a game in progress with [O] to move, when [O] cannot complete a
    line at once and [X] threatens to complete one at exactly one cell, the
    move [getBestMove] returns at hard difficulty is that cell: the threat
    is blocked. *)
Theorem X12_hard_blocks_the_threat (board : Board) (rng : Rng) (threat : Z) :
  length board = 9%nat →
  count_mark X board = S (count_mark O board) →
  (checkWinner board).1 = W null →
  (∀ move, array_get board move = Some null →
           (checkWinner (array_set board move O)).1 ≠ W O) →
  array_get board threat = Some null →
  (checkWinner (array_set board threat X)).1 = W X →
  (∀ move, array_get board move = Some null → move ≠ threat →
           (checkWinner (array_set board move X)).1 ≠ W X) →
  getBestMove hard rng board = Some ((Some threat, rng), board).
Proof.
  intros Hlen Hcount Hprogress Hnowin Hcell Hthreat Hone.
  pose proof (board_tactics board Hlen) as Hcheck.
  unfold tactics_check in Hcheck.
  rewrite !decide_True in Hcheck by done.
  destruct (winning_moves O board) as [|win rest] eqn:EO.
  2:{ assert (win ∈ winning_moves O board) as Hin by (rewrite EO; left).
      apply elem_of_winning_moves in Hin as [Hempty Hwin].
      by destruct (Hnowin win Hempty). }
  assert (∀ move, move ∈ winning_moves X board ↔ move = threat) as Honly.
  { intros move. rewrite elem_of_winning_moves. split.
    - intros [Hempty Hwin]. destruct (decide (move = threat)); [done|].
      by destruct (Hone move Hempty).
    - by intros ->. }
  pose proof (winning_moves_sorted X board) as Hsorted.
  destruct (winning_moves X board) as [|t rest] eqn:EX.
  { pose proof (proj2 (Honly threat) eq_refl) as Hin.
    by apply elem_of_nil in Hin. }
  assert (t = threat) as -> by (apply Honly; left).
  destruct rest as [|t' rest].
  - apply bool_decide_eq_true in Hcheck. by apply hard_move_spec.
  - exfalso. apply StronglySorted_inv in Hsorted as [_ Hlt].
    apply Forall_cons in Hlt as [Hlt _].
    assert (t' = threat) by (apply Honly; right; left). lia.
Qed.

(** The block of the closing game: [X] on 0 and 4 threatens cell 8 only. *)
Lemma X12_hard_blocks_witness :
  getBestMove hard zero_rng [X; O; null; null; X; null; null; null; null]
  = Some ((Some 8, zero_rng), [X; O; null; null; X; null; null; null; null]).
Proof.
  apply (X12_hard_blocks_the_threat
           [X; O; null; null; X; null; null; null; null] zero_rng 8);
    try reflexivity.
  - intros move Hmove Hwin.
    apply elem_of_getAvailableMoves in Hmove. vm_compute in Hmove.
    repeat (apply elem_of_cons in Hmove as [-> | Hmove];
            [vm_compute in Hwin; discriminate|]).
    by apply elem_of_nil in Hmove.
  - intros move Hmove Hne Hwin.
    apply elem_of_getAvailableMoves in Hmove. vm_compute in Hmove.
    repeat (apply elem_of_cons in Hmove as [-> | Hmove];
            [first [done | vm_compute in Hwin; discriminate]|]).
    by apply elem_of_nil in Hmove.
Defined.

(** ** Scores and lines along the steps of the application *)

(** X13: every finished game is counted once.  A step of the application
    either ends a game that was in progress and adds exactly one to the
    total of the three scores, or is [resetScores], or leaves the scores as
    they are and ends no game. *)
Theorem X13_finished_games_counted_once (s s' : GameState) :
  step s s' →
  (winner_truthy (winner s) = false
   ∧ winner_truthy (winner s') = true
   ∧ total_score (scores s') = total_score (scores s) + 1)
  ∨ s' = resetScores s
  ∨ (scores s' = scores s
     ∧ (winner_truthy (winner s') = true → winner s' = winner s)).
Proof.
  intros [s0 s0' Hplay | s0 | s0 | s0 mode | s0 diff].
  - apply play_places_on_empty in Hplay as (index & -> & Hcell & Hwinner).
    destruct (makeMove_effect s0 index Hcell Hwinner)
      as (_ & _ & _ & HX & HO & Ht & _).
    destruct (winner (makeMove s0 index).1) as [[]|] eqn:Hw.
    + left. unfold total_score. rewrite HX, HO, Ht.
      repeat case_decide; try done. repeat split; [done|]. lia.
    + left. unfold total_score. rewrite HX, HO, Ht.
      repeat case_decide; try done. repeat split; [done|]. lia.
    + right. right. split; [|done].
      rewrite decide_False, Z.add_0_r in HX by done.
      rewrite decide_False, Z.add_0_r in HO by done.
      rewrite decide_False, Z.add_0_r in Ht by done.
      destruct (scores (makeMove s0 index).1), (scores s0). simpl in *.
      congruence.
    + left. unfold total_score. rewrite HX, HO, Ht.
      repeat case_decide; try done. repeat split; [done|]. lia.
  - right. right. by split.
  - right. by left.
  - right. right. by split.
  - right. right. by split.
Qed.

Lemma X13_finished_games_witness :
  (winner_truthy (winner (makeMove lost_position 5).1) = false
   ∧ winner_truthy (winner lost_game) = true
   ∧ total_score (scores lost_game)
     = total_score (scores (makeMove lost_position 5).1) + 1)
  ∨ lost_game = resetScores (makeMove lost_position 5).1
  ∨ (scores lost_game = scores (makeMove lost_position 5).1
     ∧ (winner_truthy (winner lost_game) = true →
        winner lost_game = winner (makeMove lost_position 5).1)).
Proof.
  apply (X13_finished_games_counted_once (makeMove lost_position 5).1 lost_game).
  apply step_play, (play_click _ 6).
  - vm_compute. split; [discriminate | reflexivity].
  - vm_compute. reflexivity.
  - vm_compute. reflexivity.
  - intros [_ Hturn]. vm_compute in Hturn. discriminate.
Defined.

Lemma no_line_on_empty_board (l : Line) (m : Player) :
  ¬ line_complete (board initialState) l m.
Proof.
  intros (Hm & Ha & _). apply array_get_Some in Ha as [_ Ha].
  apply lookup_replicate in Ha as [-> _]. by destruct Hm.
Qed.

Lemma lines_agree_step (s s' : GameState) :
  reachable s → step s s' →
  (∀ l m, l ∈ winningCombinations →
          line_complete (board s) l m → winner s = W m) →
  ∀ l m, l ∈ winningCombinations →
         line_complete (board s') l m → winner s' = W m.
Proof.
  intros Hreach Hstep Hs l m Hl.
  destruct Hstep as [s s' Hplay | s | s | s mode | s diff];
    [|by intros ?%no_line_on_empty_board|by apply Hs
     |by intros ?%no_line_on_empty_board|by apply Hs].
  apply play_places_on_empty in Hplay as (index & -> & Hcell & Hwinner).
  intros Hline.
  pose proof (recorded_result_sound s Hreach) as Hnone.
  rewrite (winner_falsy _ Hwinner) in Hnone. destruct Hnone as (_ & _ & Hnone).
  destruct (makeMove_place s index Hcell Hwinner) as (Hb & _ & Hw & _).
  rewrite Hb in Hline. rewrite Hw.
  pose proof (array_get_in_range _ _ _ Hcell) as Hrange.
  destruct (new_line_through_cell _ _ _ _ _ Hrange (Hnone l m Hl) Hline)
    as [_ ->].
  destruct (checkWinner_result_cases
              (array_set (board s) index (currentPlayer s)))
    as [(m' & line & _ & E & Hin & Hline')
       | [(E & _ & Hno) | (E & _ & Hno)]]; rewrite E; simpl.
  - by destruct (new_line_through_cell _ _ _ _ _ Hrange
                   (Hnone line m' Hin) Hline') as [_ ->].
  - by destruct (Hno l (currentPlayer s) Hl).
  - by destruct (Hno l (currentPlayer s) Hl).
Qed.

(** X14: in every reachable state, a line of the table whose three cells
    hold the same mark belongs to the recorded winner: the board never shows
    a complete line while the game goes on or after a tie, and never
    complete lines of both players. *)
Theorem X14_complete_lines_are_the_winners (s : GameState) (l : Line)
    (m : Player) :
  reachable s →
  l ∈ winningCombinations →
  line_complete (board s) l m →
  winner s = W m.
Proof.
  intros Hreach. revert l m. unfold reachable in Hreach. revert s Hreach.
  apply (rtc_ind_r
           (λ s, ∀ l m, l ∈ winningCombinations →
                        line_complete (board s) l m → winner s = W m)
           initialState).
  - by intros l m _ ?%no_line_on_empty_board.
  - intros s s' Hreach Hstep IH. by apply (lines_agree_step s s').
Qed.

Lemma X14_complete_lines_witness : winner lost_game = W X.
Proof.
  apply (X14_complete_lines_are_the_winners lost_game (2, 4, 6) X).
  - unfold reachable. eapply rtc_r; [apply lost_position_answered_reachable|].
    apply step_play, (play_click _ 6).
    + vm_compute. split; [discriminate | reflexivity].
    + vm_compute. reflexivity.
    + vm_compute. reflexivity.
    + intros [_ Hturn]. vm_compute in Hturn. discriminate.
  - vm_compute. repeat constructor.
  - repeat split; [by left|..]; reflexivity.
Defined.

(** ** Pruning does not change the value *)

Module NumOrderFacts.
#[global] Instance eq_equiv : Equivalence NumOrder.eq.
Proof. unfold NumOrder.eq. apply _. Qed.

#[global] Instance lt_strorder : StrictOrder NumOrder.lt.
Proof.
  split.
  - intros a. unfold complement, NumOrder.lt. num_cases.
  - intros a b c. unfold NumOrder.lt. num_cases.
Qed.

#[global] Instance lt_compat :
  Proper (NumOrder.eq ==> NumOrder.eq ==> iff) NumOrder.lt.
Proof. by intros a a' -> b b' ->. Qed.

Lemma le_lteq (x y : num) :
  NumOrder.le x y ↔ NumOrder.lt x y ∨ NumOrder.eq x y.
Proof.
  unfold NumOrder.le, NumOrder.lt, NumOrder.eq, num_le, num_lt.
  destruct x as [|x|], y as [|y|]; simpl; try by intuition.
  rewrite Z.leb_le, Z.leb_gt. split.
  - intros Hle. destruct (decide (x = y)) as [->|]; [by right | left; lia].
  - intros [Hlt | [= ->]]; lia.
Qed.

Lemma lt_total (x y : num) :
  NumOrder.lt x y ∨ NumOrder.eq x y ∨ NumOrder.lt y x.
Proof.
  unfold NumOrder.lt, NumOrder.eq, num_lt.
  destruct x as [|x|], y as [|y|]; simpl; auto.
  destruct (Z.lt_total x y) as [?|[->|?]].
  - left. apply Z.leb_gt. lia.
  - auto.
  - right. right. apply Z.leb_gt. lia.
Qed.
End NumOrderFacts.

Module NumOrderTac := MakeOrderTac NumOrder NumOrderFacts.

Lemma num_le_or_lt a b : num_le a b ∨ num_lt b a.
Proof. unfold num_le, num_lt. destruct (num_leb a b); auto. Qed.

Lemma Math_max_spec a b :
  (num_le a b ∧ Math_max a b = b) ∨ (num_lt b a ∧ Math_max a b = a).
Proof. unfold Math_max, num_le, num_lt. destruct (num_leb a b); auto. Qed.

Lemma Math_min_spec a b :
  (num_le a b ∧ Math_min a b = a) ∨ (num_lt b a ∧ Math_min a b = b).
Proof. unfold Math_min, num_le, num_lt. destruct (num_leb a b); auto. Qed.

(** Order goals over [num] with [Math.max] and [Math.min]: case analysis on
    each maximum, minimum and premise, then the order tactic. *)
Ltac num_order :=
  repeat match goal with
         | H : num_leb ?a ?b = true |- _ => change (num_le a b) in H
         | H : num_leb ?a ?b = false |- _ => change (num_lt b a) in H
         end;
  repeat match goal with
         | |- context [Math_max ?a ?b] =>
             let Hm := fresh in
             destruct (Math_max_spec a b) as [[? Hm] | [? Hm]];
             rewrite Hm in *; clear Hm
         | H : context [Math_max ?a ?b] |- _ =>
             let Hm := fresh in
             destruct (Math_max_spec a b) as [[? Hm] | [? Hm]];
             rewrite Hm in *; clear Hm
         | |- context [Math_min ?a ?b] =>
             let Hm := fresh in
             destruct (Math_min_spec a b) as [[? Hm] | [? Hm]];
             rewrite Hm in *; clear Hm
         | H : context [Math_min ?a ?b] |- _ =>
             let Hm := fresh in
             destruct (Math_min_spec a b) as [[? Hm] | [? Hm]];
             rewrite Hm in *; clear Hm
         end;
  repeat match goal with
         | H : num_lt ?a ?b → _ |- _ =>
             let Hc := fresh in
             destruct (num_le_or_lt b a) as [Hc|Hc];
             [clear H | specialize (H Hc)]
         | H : num_le ?a ?b → _ |- _ =>
             let Hc := fresh in
             destruct (num_le_or_lt a b) as [Hc|Hc];
             [specialize (H Hc) | clear H]
         end;
  change num_le with NumOrder.le in *;
  change num_lt with NumOrder.lt in *;
  change (@Logic.eq num) with NumOrder.eq in *;
  NumOrderTac.order.

Lemma within_cases alpha beta r v :
  within alpha beta r v →
  (num_le r alpha ∧ num_le v r)
  ∨ (num_le beta r ∧ num_le r v)
  ∨ (num_lt alpha r ∧ num_lt r beta ∧ r = v).
Proof.
  intros (H1 & H2 & H3).
  destruct (num_le_or_lt r alpha); [by auto|].
  destruct (num_le_or_lt beta r); [by auto|]. right. right. auto.
Qed.

Lemma within_refl alpha beta r : within alpha beta r r.
Proof. repeat split; intros; apply num_le_refl. Qed.

Lemma Math_max_assoc a b c :
  Math_max (Math_max a b) c = Math_max a (Math_max b c).
Proof. num_order. Qed.

Lemma Math_min_assoc a b c :
  Math_min (Math_min a b) c = Math_min a (Math_min b c).
Proof. num_order. Qed.

Lemma Math_max_NegInf_r a : Math_max a NegInf = a.
Proof. by destruct a. Qed.

Lemma Math_min_PosInf_r a : Math_min a PosInf = a.
Proof. by destruct a. Qed.

(** One round of the maximizing loop.  [seen] is the greatest value of the
    candidates tried so far and [maxEval] the greatest result; the round
    either ends the loop with the [break] ... *)
Lemma maximizing_break alpha beta maxEval seen r v rest :
  num_le seen maxEval →
  (num_lt alpha maxEval → seen = maxEval) →
  num_lt (Math_max alpha maxEval) beta →
  within (Math_max alpha maxEval) beta r v →
  num_leb beta (Math_max (Math_max alpha maxEval) r) = true →
  within alpha beta (Math_max maxEval r) (Math_max seen (Math_max v rest)).
Proof.
  intros Hle Heq Hwin Hab%within_cases Hbreak.
  destruct Hab as [[? ?] | [[? ?] | (? & ? & ?)]];
    (split; [|split]); intros; num_order.
Qed.

(** ... or hands the next round what this one was handed. *)
Lemma maximizing_continue alpha beta maxEval seen r v :
  num_le seen maxEval →
  (num_lt alpha maxEval → seen = maxEval) →
  num_lt (Math_max alpha maxEval) beta →
  within (Math_max alpha maxEval) beta r v →
  num_leb beta (Math_max (Math_max alpha maxEval) r) = false →
  num_le (Math_max seen v) (Math_max maxEval r)
  ∧ (num_lt alpha (Math_max maxEval r) →
     Math_max seen v = Math_max maxEval r)
  ∧ Math_max (Math_max alpha maxEval) r = Math_max alpha (Math_max maxEval r)
  ∧ num_lt (Math_max (Math_max alpha maxEval) r) beta.
Proof.
  intros Hle Heq Hwin Hab%within_cases Hbreak.
  destruct Hab as [[? ?] | [[? ?] | (? & ? & ?)]];
    (split; [|split; [|split]]); intros; num_order.
Qed.

Lemma maximizing_end alpha beta maxEval seen :
  num_le seen maxEval →
  (num_lt alpha maxEval → seen = maxEval) →
  num_lt (Math_max alpha maxEval) beta →
  within alpha beta maxEval seen.
Proof. intros Hle Heq Hwin. (split; [|split]); intros; num_order. Qed.

Lemma minimizing_break alpha beta minEval seen r v rest :
  num_le minEval seen →
  (num_lt minEval beta → seen = minEval) →
  num_lt alpha (Math_min beta minEval) →
  within alpha (Math_min beta minEval) r v →
  num_leb (Math_min (Math_min beta minEval) r) alpha = true →
  within alpha beta (Math_min minEval r) (Math_min seen (Math_min v rest)).
Proof.
  intros Hle Heq Hwin Hab%within_cases Hbreak.
  destruct Hab as [[? ?] | [[? ?] | (? & ? & ?)]];
    (split; [|split]); intros; num_order.
Qed.

Lemma minimizing_continue alpha beta minEval seen r v :
  num_le minEval seen →
  (num_lt minEval beta → seen = minEval) →
  num_lt alpha (Math_min beta minEval) →
  within alpha (Math_min beta minEval) r v →
  num_leb (Math_min (Math_min beta minEval) r) alpha = false →
  num_le (Math_min minEval r) (Math_min seen v)
  ∧ (num_lt (Math_min minEval r) beta →
     Math_min seen v = Math_min minEval r)
  ∧ Math_min (Math_min beta minEval) r = Math_min beta (Math_min minEval r)
  ∧ num_lt alpha (Math_min (Math_min beta minEval) r).
Proof.
  intros Hle Heq Hwin Hab%within_cases Hbreak.
  destruct Hab as [[? ?] | [[? ?] | (? & ? & ?)]];
    (split; [|split; [|split]]); intros; num_order.
Qed.

Lemma minimizing_end alpha beta minEval seen :
  num_le minEval seen →
  (num_lt minEval beta → seen = minEval) →
  num_lt alpha (Math_min beta minEval) →
  within alpha beta minEval seen.
Proof. intros Hle Heq Hwin. (split; [|split]); intros; num_order. Qed.

Section alpha_beta.
Context (n : nat) (rec : Z → bool → num → num → M num).
Context (value : Z → bool → Board → num).
Hypothesis Hrec : ∀ board, (count_null board < n)%nat →
  ∀ depth isMaximizing alpha beta,
    num_lt alpha beta →
    ∃ r, rec depth isMaximizing alpha beta board = Some (r, board)
         ∧ within alpha beta r (value depth isMaximizing board).

Lemma maximizing_loop_exact (depth : Z) (alpha beta : num) (board : Board)
    (moves : list Z) :
  (count_null board ≤ n)%nat →
  (∀ move, move ∈ moves → array_get board move = Some null) →
  ∀ (maxEval seen : num),
    num_le seen maxEval →
    (num_lt alpha maxEval → seen = maxEval) →
    num_lt (Math_max alpha maxEval) beta →
    ∃ r, maximizing_loop rec depth moves (Math_max alpha maxEval) beta
                         maxEval board = Some (r, board)
         ∧ within alpha beta r
             (Math_max seen
                (max_over (λ move, value (depth + 1) false
                                     (array_set board move O)) moves)).
Proof.
  intros Hn. induction moves as [|move rest IH];
    intros Hnull maxEval seen Hle Heq Hwin.
  - exists maxEval. split; [done|]. cbn [max_over foldr].
    rewrite Math_max_NegInf_r. by eapply maximizing_end.
  - assert (array_get board move = Some null) as Hmove by (apply Hnull; left).
    pose proof (count_null_array_set board move O Hmove ltac:(done)) as Hc.
    destruct (Hrec (array_set board move O) ltac:(lia) (depth + 1) false
                   (Math_max alpha maxEval) beta Hwin) as (r & Hr & Hab).
    cbn [maximizing_loop]. unfold bind at 1, write at 1.
    unfold bind at 1. rewrite Hr.
    unfold bind at 1, write at 1. rewrite (array_set_undo _ _ _ _ Hmove).
    cbn [max_over foldr]. fold (max_over (λ move, value (depth + 1) false
                                     (array_set board move O)) rest).
    destruct (num_leb beta (Math_max (Math_max alpha maxEval) r)) eqn:Hbreak.
    + eexists. split; [reflexivity|]. by apply maximizing_break.
    + destruct (maximizing_continue _ _ _ _ _ _ Hle Heq Hwin Hab Hbreak)
        as (Hle' & Heq' & Halpha & Hwin').
      rewrite Halpha in *.
      destruct (IH ltac:(intros m Hm; apply Hnull; by right)
                   (Math_max maxEval r)
                   (Math_max seen (value (depth + 1) false
                                     (array_set board move O)))
                   Hle' Heq' Hwin') as (r' & Hr' & Hab').
      exists r'. split; [done|]. by rewrite <- Math_max_assoc.
Qed.

Lemma minimizing_loop_exact (depth : Z) (alpha beta : num) (board : Board)
    (moves : list Z) :
  (count_null board ≤ n)%nat →
  (∀ move, move ∈ moves → array_get board move = Some null) →
  ∀ (minEval seen : num),
    num_le minEval seen →
    (num_lt minEval beta → seen = minEval) →
    num_lt alpha (Math_min beta minEval) →
    ∃ r, minimizing_loop rec depth moves alpha (Math_min beta minEval)
                         minEval board = Some (r, board)
         ∧ within alpha beta r
             (Math_min seen
                (min_over (λ move, value (depth + 1) true
                                     (array_set board move X)) moves)).
Proof.
  intros Hn. induction moves as [|move rest IH];
    intros Hnull minEval seen Hle Heq Hwin.
  - exists minEval. split; [done|]. cbn [min_over foldr].
    rewrite Math_min_PosInf_r. by eapply minimizing_end.
  - assert (array_get board move = Some null) as Hmove by (apply Hnull; left).
    pose proof (count_null_array_set board move X Hmove ltac:(done)) as Hc.
    destruct (Hrec (array_set board move X) ltac:(lia) (depth + 1) true
                   alpha (Math_min beta minEval) Hwin) as (r & Hr & Hab).
    cbn [minimizing_loop]. unfold bind at 1, write at 1.
    unfold bind at 1. rewrite Hr.
    unfold bind at 1, write at 1. rewrite (array_set_undo _ _ _ _ Hmove).
    cbn [min_over foldr]. fold (min_over (λ move, value (depth + 1) true
                                     (array_set board move X)) rest).
    destruct (num_leb (Math_min (Math_min beta minEval) r) alpha) eqn:Hbreak.
    + eexists. split; [reflexivity|]. by apply minimizing_break.
    + destruct (minimizing_continue _ _ _ _ _ _ Hle Heq Hwin Hab Hbreak)
        as (Hle' & Heq' & Hbeta & Hwin').
      rewrite Hbeta in *.
      destruct (IH ltac:(intros m Hm; apply Hnull; by right)
                   (Math_min minEval r)
                   (Math_min seen (value (depth + 1) true
                                     (array_set board move X)))
                   Hle' Heq' Hwin') as (r' & Hr' & Hab').
      exists r'. split; [done|]. by rewrite <- Math_min_assoc.
Qed.
End alpha_beta.

(** With bounds [alpha < beta] and enough budget, the result of the search
    is [within] the bounds of the value of the position. *)
Lemma minimax_fuel_exact (fuel : nat) :
  ∀ board, (count_null board < fuel)%nat →
    ∀ depth isMaximizing alpha beta,
      num_lt alpha beta →
      ∃ r, minimax_fuel fuel depth isMaximizing alpha beta board
           = Some (r, board)
           ∧ within alpha beta r (best_value fuel depth isMaximizing board).
Proof.
  induction fuel as [|fuel IH];
    intros board Hfuel depth isMaximizing alpha beta Hwin; [lia|].
  cbn [minimax_fuel best_value]. unfold bind, read_board.
  destruct (checkWinner board) as [winner line]. cbn [fst].
  repeat case_decide;
    try (eexists; split; [reflexivity | apply within_refl]).
  destruct isMaximizing.
  - destruct (maximizing_loop_exact fuel _ _ IH depth alpha beta board
                (getAvailableMoves board) ltac:(lia)
                ltac:(intros move; by rewrite elem_of_getAvailableMoves)
                NegInf NegInf) as (r & Hr & Hab).
    + apply num_le_refl.
    + by destruct alpha.
    + by rewrite Math_max_NegInf_r.
    + rewrite Math_max_NegInf_r in Hr. exists r. split; [done|].
      by rewrite Math_max_NegInf in Hab.
  - destruct (minimizing_loop_exact fuel _ _ IH depth alpha beta board
                (getAvailableMoves board) ltac:(lia)
                ltac:(intros move; by rewrite elem_of_getAvailableMoves)
                PosInf PosInf) as (r & Hr & Hab).
    + apply num_le_refl.
    + by destruct beta.
    + by rewrite Math_min_PosInf_r.
    + rewrite Math_min_PosInf_r in Hr. exists r. split; [done|].
      by rewrite Math_min_PosInf in Hab.
Qed.

Lemma minimax_fuel_value (fuel : nat) (board : Board) (depth : Z)
    (isMaximizing : bool) :
  (count_null board < fuel)%nat →
  minimax_fuel fuel depth isMaximizing NegInf PosInf board
  = Some (best_value fuel depth isMaximizing board, board).
Proof.
  intros Hfuel.
  destruct (minimax_fuel_exact fuel board Hfuel depth isMaximizing
              NegInf PosInf eq_refl) as (r & Hr & _ & _ & Hab).
  destruct (minimax_fuel_ok fuel board Hfuel depth isMaximizing NegInf PosInf)
    as (v & Hv & _).
  rewrite Hr in Hv. injection Hv as ->. rewrite Hr. by rewrite <- Hab.
Qed.

Lemma minimax_value (board : Board) (depth : Z) (isMaximizing : bool) :
  minimax depth isMaximizing NegInf PosInf board
  = Some (position_value depth isMaximizing board, board).
Proof.
  apply minimax_fuel_value. pose proof (count_null_le_length board). lia.
Qed.

(** A budget above the number of empty cells gives the value of the
    position: the tree is never cut off. *)
Lemma best_value_enough (fuel : nat) (board : Board) (depth : Z)
    (isMaximizing : bool) :
  (count_null board < fuel)%nat →
  best_value fuel depth isMaximizing board
  = position_value depth isMaximizing board.
Proof.
  intros Hfuel.
  pose proof (minimax_fuel_value fuel board depth isMaximizing Hfuel) as H1.
  rewrite minimax_fuel_enough, minimax_value in H1 by done. by simplify_eq.
Qed.

(** After [O] blocks at cell 2 of the scenario board, [X] cannot stop the
    win of [O] two placements later. *)
Example position_value_after_block :
  position_value 0 false (array_set scenario_board 2 O) = Fin 8.
Proof. vm_compute. reflexivity. Qed.

(** X15: pruning does not change the result.  Called without bounds, as
    [getBestMove] calls it, [minimax] returns exactly the minimax value of
    the position over the whole game tree; called with any bounds
    [alpha < beta] it returns that value when it lies strictly between the
    bounds, and otherwise a bound of the value on the same side. *)
Theorem X15_pruning_keeps_the_value (board : Board) (depth : Z)
    (isMaximizing : bool) :
  minimax depth isMaximizing NegInf PosInf board
  = Some (position_value depth isMaximizing board, board)
  ∧ (∀ alpha beta,
       num_lt alpha beta →
       ∃ r, minimax depth isMaximizing alpha beta board = Some (r, board)
            ∧ within alpha beta r (position_value depth isMaximizing board))
  ∧ (∀ fuel, (count_null board < fuel)%nat →
       best_value fuel depth isMaximizing board
       = position_value depth isMaximizing board).
Proof.
  split; [apply minimax_value|]. split.
  - intros alpha beta Hwin. apply minimax_fuel_exact; [|done].
    pose proof (count_null_le_length board). lia.
  - intros fuel. apply best_value_enough.
Qed.

Lemma X15_pruning_witness :
  ∃ r, minimax 0 false (Fin (-1)) (Fin 1) (replicate 9 null)
       = Some (r, replicate 9 null)
       ∧ within (Fin (-1)) (Fin 1) r (position_value 0 false (replicate 9 null)).
Proof.
  apply (proj1 (proj2 (X15_pruning_keeps_the_value (replicate 9 null) 0 false))).
  reflexivity.
Defined.

(** X16: the move at hard difficulty is a best move of the game tree: on a
    board with an empty cell, no placement of [O] leaves a position of
    greater value than the one [getBestMove] returns, and every placement at
    a lower index leaves one of strictly smaller value. *)
Theorem X16_hard_move_is_best (board : Board) (rng : Rng) (index : Z) :
  array_get board index = Some null →
  ∃ best,
    getBestMove hard rng board = Some ((Some best, rng), board)
    ∧ array_get board best = Some null
    ∧ ∀ move,
        array_get board move = Some null →
        num_le (position_value 0 false (array_set board move O))
               (position_value 0 false (array_set board best O))
        ∧ (move < best →
           num_lt (position_value 0 false (array_set board move O))
                  (position_value 0 false (array_set board best O))).
Proof.
  intros Hcell.
  assert (getAvailableMoves board ≠ []) as Hmoves.
  { intros Hnil. apply elem_of_getAvailableMoves in Hcell.
    rewrite Hnil in Hcell. by apply elem_of_nil in Hcell. }
  destruct (optimal_play_spec board Hmoves)
    as (best & value & Hplay & Hbest & Hscore & Hall).
  exists best. rewrite getBestMove_optimal by done. rewrite Hplay.
  split; [done|]. split; [done|]. intros move Hmove.
  assert (∀ m, root_score board m
                 (position_value 0 false (array_set board m O))) as Hroot
      by (intros m; apply minimax_value).
  rewrite (root_score_unique _ _ _ _ (Hroot best) Hscore).
  by apply Hall.
Qed.

Lemma X16_hard_move_witness :
  ∃ best,
    getBestMove hard zero_rng scenario_board
    = Some ((Some best, zero_rng), scenario_board)
    ∧ array_get scenario_board best = Some null
    ∧ ∀ move,
        array_get scenario_board move = Some null →
        num_le (position_value 0 false (array_set scenario_board move O))
               (position_value 0 false (array_set scenario_board best O))
        ∧ (move < best →
           num_lt (position_value 0 false (array_set scenario_board move O))
                  (position_value 0 false (array_set scenario_board best O))).
Proof.
  apply (X16_hard_move_is_best scenario_board zero_rng 2). reflexivity.
Defined.

(** ** The sign of the value *)

Lemma some_move_true (f : Z → bool) (moves : list Z) :
  some_move f moves = true ↔ ∃ move, move ∈ moves ∧ f move = true.
Proof.
  induction moves as [|m rest IH]; cbn [some_move].
  - split; [done|]. by intros (move & []%elem_of_nil & _).
  - destruct (f m) eqn:Hm.
    + split; [|done]. intros _. exists m. split; [left | done].
    + rewrite IH. split.
      * intros (move & Hin & Hmove). exists move. split; [by right | done].
      * intros (move & [-> | Hin]%elem_of_cons & Hmove); [congruence|].
        by exists move.
Qed.

Lemma max_over_negative (f : Z → num) (moves : list Z) :
  num_lt (max_over f moves) (Fin 0)
  ↔ ∀ move, move ∈ moves → num_lt (f move) (Fin 0).
Proof.
  induction moves as [|m rest IH]; cbn [max_over foldr].
  - split; [|done]. intros _ move []%elem_of_nil.
  - fold (max_over f rest). split.
    + intros Hmax move [-> | Hin]%elem_of_cons.
      * num_order.
      * apply IH; [|done]. num_order.
    + intros Hall.
      assert (num_lt (f m) (Fin 0)) by (apply Hall; left).
      assert (num_lt (max_over f rest) (Fin 0))
        by (apply IH; intros move Hin; apply Hall; by right).
      num_order.
Qed.

Lemma min_over_negative (f : Z → num) (moves : list Z) :
  num_lt (min_over f moves) (Fin 0)
  ↔ ∃ move, move ∈ moves ∧ num_lt (f move) (Fin 0).
Proof.
  induction moves as [|m rest IH]; cbn [min_over foldr].
  - split; [done|]. by intros (move & []%elem_of_nil & _).
  - fold (min_over f rest). split.
    + intros Hmin. destruct (num_le_or_lt (Fin 0) (f m)) as [Hm|Hm].
      * assert (num_lt (min_over f rest) (Fin 0)) as Hrest by num_order.
        apply IH in Hrest as (move & Hin & Hmove).
        exists move. split; [by right | done].
      * exists m. split; [left | done].
    + intros (move & [-> | Hin]%elem_of_cons & Hmove).
      * num_order.
      * assert (num_lt (min_over f rest) (Fin 0))
          by (apply IH; by exists move).
        num_order.
Qed.

Lemma best_value_terminal (fuel : nat) (depth : Z) (isMaximizing : bool)
    (board : Board) :
  (count_null board < fuel)%nat →
  ((checkWinner board).1 = W O →
   best_value fuel depth isMaximizing board = Fin (10 - depth))
  ∧ ((checkWinner board).1 = W X →
     best_value fuel depth isMaximizing board = Fin (depth - 10))
  ∧ ((checkWinner board).1 = tie →
     best_value fuel depth isMaximizing board = Fin 0).
Proof.
  intros Hfuel. destruct fuel as [|fuel]; [lia|]. cbn [best_value].
  repeat split; intros ->; repeat case_decide; done.
Qed.

(** The value of a position in progress is negative exactly when [X] can
    force a win, whoever is to move. *)
Lemma value_negative_iff_forced (fuel : nat) :
  ∀ (board : Board) (depth : Z),
    (count_null board < fuel)%nat →
    0 ≤ depth → depth + Z.of_nat (count_null board) ≤ 9 →
    (checkWinner board).1 = W null →
    (x_forces fuel false board = true
     ↔ num_lt (best_value fuel depth true board) (Fin 0))
    ∧ (x_forces fuel true board = true
       ↔ num_lt (best_value fuel depth false board) (Fin 0)).
Proof.
  induction fuel as [|fuel IH]; intros board depth Hfuel Hdepth Hbound Hprogress;
    [lia|].
  cbn [x_forces best_value]. rewrite Hprogress.
  rewrite !decide_False by done.
  assert (∀ move mark, move ∈ getAvailableMoves board → mark ≠ null →
            (count_null (array_set board move mark) < fuel)%nat
            ∧ depth + 1 + Z.of_nat (count_null (array_set board move mark)) ≤ 9)
    as Hchild.
  { intros move mark Hmove%elem_of_getAvailableMoves Hmark.
    pose proof (count_null_array_set board move mark Hmove Hmark). lia. }
  split.
  - rewrite every_move_true, max_over_negative.
    apply forall_proper. intros move. apply forall_proper. intros Hmove.
    destruct (Hchild move O Hmove ltac:(done)) as [Hc Hb].
    destruct (best_value_terminal fuel (depth + 1) false
                (array_set board move O) Hc) as (HO & HX & Ht).
    destruct (checkWinner_winner_cases (array_set board move O))
      as [Hw | [Hw | [[Hw _] | [Hw _]]]].
    + rewrite Hw, (HX Hw). unfold num_lt. simpl. rewrite Z.leb_gt. split; [lia|done].
    + rewrite Hw, (HO Hw). unfold num_lt. simpl. rewrite Z.leb_gt. split; [done|lia].
    + rewrite Hw in *. simpl in *. rewrite (Ht eq_refl). done.
    + rewrite Hw. simpl. apply (IH _ (depth + 1)); [done|lia|done|by rewrite Hw].
  - rewrite some_move_true, min_over_negative.
    cut (∀ move, move ∈ getAvailableMoves board →
           (match (checkWinner (array_set board move X)).1 with
            | W X => true
            | W null => x_forces fuel false (array_set board move X)
            | _ => false
            end = true
            ↔ num_lt (best_value fuel (depth + 1) true
                        (array_set board move X)) (Fin 0))).
    { intros Hpt. split; intros (move & Hin & Hmove); exists move;
        (split; [done|]); by apply (Hpt move Hin). }
    intros move Hmove.
    destruct (Hchild move X Hmove ltac:(done)) as [Hc Hb].
    destruct (best_value_terminal fuel (depth + 1) true
                (array_set board move X) Hc) as (HO & HX & Ht).
    destruct (checkWinner_winner_cases (array_set board move X))
      as [Hw | [Hw | [[Hw _] | [Hw _]]]].
    + rewrite Hw, (HX Hw). unfold num_lt. simpl. rewrite Z.leb_gt. split; [lia|done].
    + rewrite Hw, (HO Hw). unfold num_lt. simpl. rewrite Z.leb_gt. split; [done|lia].
    + rewrite Hw in *. simpl in *. rewrite (Ht eq_refl). done.
    + rewrite Hw. simpl. apply (IH _ (depth + 1)); [done|lia|done|by rewrite Hw].
Qed.

(** X17: on a nine-cell board in progress with [O] to move, [X] can force a
    win exactly when the value of the position that the search computes is
    negative. *)
Theorem X17_negative_value_is_forced_loss (board : Board) :
  length board = 9%nat →
  (checkWinner board).1 = W null →
  x_can_force_win board = true
  ↔ num_lt (position_value 0 true board) (Fin 0).
Proof.
  intros Hlen Hprogress. unfold x_can_force_win, position_value.
  apply (value_negative_iff_forced (S (length board)) board 0);
    pose proof (count_null_le_length board); [lia|lia|lia|done].
Qed.

Lemma X17_negative_value_witness :
  x_can_force_win (board lost_position) = true
  ↔ num_lt (position_value 0 true (board lost_position)) (Fin 0).
Proof.
  apply (X17_negative_value_is_forced_loss (board lost_position));
    reflexivity.
Defined.

